(** * mina_windows_loop: the turn pipeline of the voice loop

    A shallow embedding of [mina_windows_loop.py]: the text cleanup helpers
    ([clean_text], [strip_emoji]), the transcript quality gates, the
    selection of the reply in the JSON answer of the agent, and the main
    loop with its calls to the outside (microphone, speech-to-text, the WSL
    bridge, edge-tts, the audio player).

    A Python [str] is a sequence of Unicode code points: it is modelled as
    a list of integers, one per code point. *)

From Stdlib Require Import ZArith List Bool Lia ZifyBool String Ascii.
From Stdlib Require Import PrimFloat.
Import ListNotations.
Open Scope Z_scope.

Set Implicit Arguments.

(* ================================================================== *)
(** ** Python strings *)
(* ================================================================== *)

Abbreviation codepoint := Z (only parsing).
Definition pystr := list codepoint.

(** The code points a Python [str] can hold. *)
Definition valid_codepoint (c : codepoint) : Prop := 0 <= c <= 0x10FFFF.

(** An ASCII literal of the source, as a [pystr]. *)
Definition lit (s : string) : pystr :=
  map (fun a => Z.of_N (N_of_ascii a)) (list_ascii_of_string s).

Definition chr (a : ascii) : codepoint := Z.of_N (N_of_ascii a).

Fixpoint pystr_eqb (a b : pystr) : bool :=
  match a, b with
  | [], [] => true
  | x :: a', y :: b' => (x =? y) && pystr_eqb a' b'
  | _, _ => false
  end.

(** [str.isspace], which is also the class [\s] of [re] on [str] patterns
    and the set that [str.strip()] and [str.split()] work with. *)
Definition is_space (c : codepoint) : bool :=
  ((9 <=? c) && (c <=? 13)) || ((28 <=? c) && (c <=? 32))
  || (c =? 0x85) || (c =? 0xA0) || (c =? 0x1680)
  || ((0x2000 <=? c) && (c <=? 0x200A))
  || (c =? 0x2028) || (c =? 0x2029) || (c =? 0x202F) || (c =? 0x205F)
  || (c =? 0x3000).

Fixpoint take_while (p : codepoint -> bool) (s : pystr) : pystr :=
  match s with
  | c :: s' => if p c then c :: take_while p s' else []
  | [] => []
  end.

Fixpoint drop_while (p : codepoint -> bool) (s : pystr) : pystr :=
  match s with
  | c :: s' => if p c then drop_while p s' else s
  | [] => []
  end.

Definition lstrip (s : pystr) : pystr := drop_while is_space s.

Definition rstrip (s : pystr) : pystr := rev (lstrip (rev s)).

(** [s.strip()] *)
Definition strip (s : pystr) : pystr := rstrip (lstrip s).

(** [s.split()]: the maximal runs of non-whitespace characters. [cur] is
    the run being read, most recent character first. *)
Fixpoint split_from (cur : pystr) (s : pystr) : list pystr :=
  match s with
  | [] => match cur with [] => [] | _ => [rev cur] end
  | c :: s' =>
      if is_space c
      then match cur with
           | [] => split_from [] s'
           | _ => rev cur :: split_from [] s'
           end
      else split_from (c :: cur) s'
  end.

Definition split (s : pystr) : list pystr := split_from [] s.

(** [sep.join(parts)] *)
Fixpoint join (sep : pystr) (parts : list pystr) : pystr :=
  match parts with
  | [] => []
  | [p] => p
  | p :: rest => p ++ sep ++ join sep rest
  end.

(** [s.replace(old, new)] for a one-character [old]. *)
Definition replace (old : codepoint) (new : pystr) (s : pystr) : pystr :=
  flat_map (fun c => if c =? old then new else [c]) s.

(** [s[:n]] for [n >= 0]. *)
Definition slice_to (n : nat) (s : pystr) : pystr := firstn n s.

(** [s.encode("ascii", "ignore").decode("ascii")]: the characters the ascii
    codec cannot encode are left out. *)
Definition is_ascii (c : codepoint) : bool := c <? 128.

Definition encode_ascii_ignore (s : pystr) : pystr := filter is_ascii s.

(* ================================================================== *)
(** ** The regular expressions of the source *)
(* ================================================================== *)

Module Re.

(** A character class. *)
Definition cls := codepoint -> bool.

(** The patterns of this program are sequences of single characters (or
    classes) and of greedy repetitions of a class. *)
Inductive atom :=
| One (p : cls)       (* a character of the class *)
| Many (p : cls).     (* [p*], greedy *)

Definition pattern := list atom.

Definition char (a : ascii) : cls := fun c => c =? chr a.
Definition not_char (a : ascii) : cls := fun c => negb (c =? chr a).
Definition range (lo hi : codepoint) : cls :=
  fun c => (lo <=? c) && (c <=? hi).
Definition any_of (s : string) : cls :=
  fun c => existsb (Z.eqb c) (lit s).

Definition to_lower (c : codepoint) : codepoint :=
  if (65 <=? c) && (c <=? 90) then c + 32 else c.

(** A literal character under [re.I]. For the characters of the pattern
    of this program ([reply_to] and the brackets) no code point outside
    ASCII folds to them. *)
Definition char_i (a : ascii) : cls :=
  fun c => to_lower c =? to_lower (chr a).

Definition literal_i (s : string) : pattern :=
  map (fun a => One (char_i a)) (list_ascii_of_string s).

(** [match_len pat s]: the length of the match of [pat] at the start of
    [s], if there is one. A repetition first takes as many characters
    as it can and gives them back one at a time when the rest of the
    pattern fails. *)
Fixpoint match_len (pat : pattern) (s : pystr) : option nat :=
  match pat with
  | [] => Some 0%nat
  | One p :: pat' =>
      match s with
      | c :: s' => if p c then option_map S (match_len pat' s') else None
      | [] => None
      end
  | Many p :: pat' =>
      (fix star (s : pystr) : option nat :=
         match s with
         | c :: s' =>
             if p c
             then match star s' with
                  | Some n => Some (S n)
                  | None => match_len pat' s
                  end
             else match_len pat' s
         | [] => match_len pat' []
         end) s
  end.

(** [re.search(pat, s)] as a truth value. *)
Fixpoint search (pat : pattern) (s : pystr) : bool :=
  match match_len pat s with
  | Some _ => true
  | None => match s with [] => false | _ :: s' => search pat s' end
  end.

(** [re.sub(pat, repl, s)] for a [repl] without group references: the
    matches are looked for from left to right and do not overlap.
    [skip] counts the characters of [s] that still belong to the match
    that was just replaced. *)
Fixpoint sub_from (pat : pattern) (repl : pystr) (skip : nat) (s : pystr)
  : pystr :=
  match s with
  | [] =>
      match skip, match_len pat [] with
      | O, Some _ => repl
      | _, _ => []
      end
  | c :: s' =>
      match skip with
      | S k => sub_from pat repl k s'
      | O =>
          match match_len pat s with
          | Some (S k) => repl ++ sub_from pat repl k s'
          | Some O => repl ++ c :: sub_from pat repl 0 s'
          | None => c :: sub_from pat repl 0 s'
          end
      end
  end.

Definition sub (pat : pattern) (repl : pystr) (s : pystr) : pystr :=
  sub_from pat repl 0 s.

End Re.

(* ================================================================== *)
(** ** Core runtime config *)
(* ================================================================== *)

Definition SECONDS : Z := 8.
Definition SESSION_ID : pystr := lit "voice-loop".
Definition VOICE : pystr := lit "en-US-AnaNeural".

(* ================================================================== *)
(** ** Text cleanup helpers *)
(* ================================================================== *)

Definition EM_DASH : codepoint := 0x2014.
Definition EN_DASH : codepoint := 0x2013.
Definition NEWLINE : codepoint := 10.
Definition SPACE : codepoint := 32.

(** [r"\[\[\s*reply_to[^\]]*\]\]"] with [flags=re.I] *)
Definition reply_tag_re : Re.pattern :=
  [Re.One (Re.char_i "["); Re.One (Re.char_i "["); Re.Many is_space]
  ++ Re.literal_i "reply_to"
  ++ [Re.Many (Re.not_char "]"); Re.One (Re.char_i "]"); Re.One (Re.char_i "]")].

(** [r"[`*_#>~]"] *)
Definition markdown_re : Re.pattern := [Re.One (Re.any_of "`*_#>~")].

(** [r"\s+"] *)
Definition spaces_re : Re.pattern := [Re.One is_space; Re.Many is_space].

Definition clean_text (text : pystr) : pystr :=
  let t := Re.sub reply_tag_re [] text in
  let t := Re.sub markdown_re [] t in
  let t := replace EN_DASH (lit ", ")
             (replace EM_DASH (lit ", ") (replace NEWLINE (lit " ") t)) in
  let t := strip (Re.sub spaces_re (lit " ") t) in
  t.

(** [r"[\U00010000-\U0010ffff]"] *)
Definition emoji_re : Re.pattern := [Re.One (Re.range 0x10000 0x10FFFF)].

Definition strip_emoji (text : pystr) : pystr := Re.sub emoji_re [] text.

(** What [main] does to the reply before it is printed and spoken. *)
Definition normalize_reply (reply : pystr) : pystr :=
  encode_ascii_ignore (strip_emoji (clean_text reply)).


(* ================================================================== *)
(** ** Python values and exceptions *)
(* ================================================================== *)

(** The exceptions the handlers of [main] tell apart. [Error] stands for
    the other subclasses of [Exception], with the name of the class and
    the text of [str(e)]. [EOFError] is a subclass of [Exception] too;
    [KeyboardInterrupt] is not. *)
Inductive exn :=
| EOFError
| KeyboardInterrupt
| Error (class_name : pystr) (message : pystr).

Definition is_Exception (e : exn) : bool :=
  match e with KeyboardInterrupt => false | _ => true end.

Inductive result (A : Type) :=
| Ok (a : A)
| Raise (e : exn).
Arguments Ok {A} a.
Arguments Raise {A} e.

Definition rbind {A B} (m : result A) (k : A -> result B) : result B :=
  match m with
  | Ok a => k a
  | Raise e => Raise e
  end.

Declare Scope result_scope.
Delimit Scope result_scope with result.
Notation "x <- m ;; k" := (rbind m (fun x => k))
  (at level 61, m at next level, right associativity) : result_scope.

#[local] Set Warnings "-register-all".

(** What [json.loads] returns: the Python values of a JSON document. A
    [dict] is kept as the list of its items; [json.loads] builds it with
    one item per key. *)
Inductive pyval :=
| PNone
| PBool (b : bool)
| PInt (n : Z)
| PFloat (f : float)
| PStr (s : pystr)
| PList (items : list pyval)
| PDict (items : list (pystr * pyval)).

(** [bool(v)] *)
Definition truthy (v : pyval) : bool :=
  match v with
  | PNone => false
  | PBool b => b
  | PInt n => negb (n =? 0)
  | PFloat f => negb (PrimFloat.eqb f PrimFloat.zero)
  | PStr s => match s with [] => false | _ => true end
  | PList l => match l with [] => false | _ => true end
  | PDict d => match d with [] => false | _ => true end
  end.

(** [a or b] *)
Definition py_or (a b : pyval) : pyval := if truthy a then a else b.

(** [type(v).__name__] *)
Definition type_name (v : pyval) : pystr :=
  match v with
  | PNone => lit "NoneType"
  | PBool _ => lit "bool"
  | PInt _ => lit "int"
  | PFloat _ => lit "float"
  | PStr _ => lit "str"
  | PList _ => lit "list"
  | PDict _ => lit "dict"
  end.

Definition AttributeError (v : pyval) (attr : string) : exn :=
  Error (lit "AttributeError")
        (lit "'" ++ type_name v ++ lit "' object has no attribute '"
         ++ lit attr ++ lit "'").

Definition TypeError_not_iterable (v : pyval) : exn :=
  Error (lit "TypeError")
        (lit "'" ++ type_name v ++ lit "' object is not iterable").

Fixpoint lookup (key : pystr) (d : list (pystr * pyval)) : option pyval :=
  match d with
  | [] => None
  | (k, v) :: d' => if pystr_eqb k key then Some v else lookup key d'
  end.

(** [v.get(key)]: only a [dict] has the method; a missing key gives
    [None]. *)
Definition py_get (v : pyval) (key : string) : result pyval :=
  match v with
  | PDict d => Ok (match lookup (lit key) d with Some x => x | None => PNone end)
  | _ => Raise (AttributeError v "get")
  end.

(** [v.strip()]: only a [str] has the method. *)
Definition py_strip (v : pyval) : result pystr :=
  match v with
  | PStr s => Ok (strip s)
  | _ => Raise (AttributeError v "strip")
  end.

(** [iter(v)], all at once: the items of a list, the keys of a dict, the
    characters of a str. *)
Definition py_iter (v : pyval) : result (list pyval) :=
  match v with
  | PList l => Ok l
  | PDict d => Ok (map (fun kv => PStr (fst kv)) d)
  | PStr s => Ok (map (fun c => PStr [c]) s)
  | _ => Raise (TypeError_not_iterable v)
  end.

(* ================================================================== *)
(** ** Reply selection *)
(* ================================================================== *)

Definition FALLBACK_REPLY : pystr :=
  lit "I heard you, but I don't have a reply yet.".

Open Scope result_scope.

(** [(p.get("text") or "").strip()] *)
Definition payload_text (p : pyval) : result pystr :=
  t <- py_get p "text" ;;
  py_strip (py_or t (PStr [])).

(** [next(((p.get("text") or "").strip() for p in payloads
           if (p.get("text") or "").strip()), "")] *)
Fixpoint next_text (payloads : list pyval) : result pystr :=
  match payloads with
  | [] => Ok []
  | p :: rest =>
      cond <- payload_text p ;;
      match cond with
      | [] => next_text rest
      | _ => payload_text p
      end
  end.

(** Lines 186 to 192 of [main]. *)
Definition select_reply (data : pyval) : result pystr :=
  r <- py_get data "result" ;;
  pl <- py_get (py_or r (PDict [])) "payloads" ;;
  payloads <- py_iter (py_or pl (PList [])) ;;
  reply <- next_text payloads ;;
  Ok (match reply with [] => FALLBACK_REPLY | _ => reply end).

Close Scope result_scope.

(* ================================================================== *)
(** ** The outside world and the effects of a turn *)
(* ================================================================== *)

(** What [subprocess.run] returns. *)
Record completed := {
  returncode : Z;
  stdout : pystr;
  stderr : pystr
}.

(** The functions of the Python library that the loop calls and that are
    not modelled here. *)
Record pylib := {
  json_loads : pystr -> result pyval;   (* json.loads(s) *)
  json_dumps : pystr -> pystr;          (* json.dumps(s) for a str *)
  repr : pystr -> pystr                 (* repr(s) for a str *)
}.

(** What the outside answers during one iteration of the loop: each call
    returns or raises. *)
Record world := {
  w_input : result unit;               (* input(...) *)
  w_capture : result unit;             (* sd.rec, sd.wait, sf.write *)
  w_segments : result (list pystr);    (* model.transcribe: the segment texts *)
  w_wsl : result completed;            (* subprocess.run of wsl.exe *)
  w_tts : result completed;            (* subprocess.run of edge-tts *)
  w_where : result completed;          (* subprocess.run of where ffplay *)
  w_player : result completed          (* subprocess.run of the player *)
}.

(** What a turn does that can be seen from outside, in order. *)
Inductive event :=
| Print (args : list pystr)                     (* print( *args ) *)
| LoadModel (name device compute_type : pystr)  (* WhisperModel(...) *)
| Input (prompt : pystr)                        (* input(prompt) *)
| Capture (frames samplerate device : Z) (path : pystr)
| Transcribe (path : pystr)                     (* model.transcribe(path, ...) *)
| Run (argv : list pystr).                      (* subprocess.run(argv, ...) *)

(** A computation with effects: the events it produced, and a value or
    the exception that stopped it. *)
Definition io (A : Type) : Type := (list event * result A)%type.

Definition ret {A} (a : A) : io A := ([], Ok a).

Definition bind {A B} (m : io A) (k : A -> io B) : io B :=
  match m with
  | (t, Ok a) => let (t', r) := k a in (t ++ t', r)
  | (t, Raise e) => (t, Raise e)
  end.

Definition emit (e : event) : io unit := ([e], Ok tt).

Definition call {A} (e : event) (answer : result A) : io A := ([e], answer).

Definition lift {A} (r : result A) : io A := ([], r).

(** [try: m  except <handles>: h] *)
Definition try_except {A} (m : io A) (handles : exn -> bool)
  (h : exn -> io A) : io A :=
  match m with
  | (t, Raise e) =>
      if handles e then let (t', r) := h e in (t ++ t', r) else (t, Raise e)
  | _ => m
  end.

Declare Scope io_scope.
Delimit Scope io_scope with io.
Notation "x <- m ;; k" := (bind m (fun x => k))
  (at level 61, m at next level, right associativity) : io_scope.
Notation "m ;; k" := (bind m (fun _ => k))
  (at level 61, right associativity) : io_scope.

Definition print (args : list pystr) : io unit := emit (Print args).

(** How an iteration of [while True] ends. *)
Inductive control := Continue | Break.

(* ================================================================== *)
(** ** WSL / OpenClaw bridge, playback and STT helpers *)
(* ================================================================== *)

Definition SR : Z := 16000.
Definition INPUT_DEVICE : Z := 1.
Definition WSL_DISTRO : pystr := lit "kali-linux".
Definition WSL_USER : pystr := lit "travis".
Definition OPENCLAW_MJS : pystr :=
  lit "/home/travis/.npm-global/lib/node_modules/openclaw/openclaw.mjs".
Definition NODE_WSL : pystr := lit "/home/linuxbrew/.linuxbrew/bin/node".
Definition DQUOTE : codepoint := 34.

Open Scope io_scope.

Definition run_wsl_bash (w : world) (command : pystr) : io completed :=
  let command := lit "export LANG=C.UTF-8 LC_ALL=C.UTF-8; " ++ command in
  let cmd := [lit "wsl.exe"; lit "-d"; WSL_DISTRO; lit "-u"; WSL_USER;
              lit "bash"; lit "-lc"; command] in
  call (Run cmd) (w_wsl w).

Definition ask_mina_via_wsl (py : pylib) (w : world)
  (message session_id : pystr) : io completed :=
  let quoted_msg := json_dumps py message in
  let cmd := [DQUOTE] ++ NODE_WSL ++ [DQUOTE; SPACE; DQUOTE] ++ OPENCLAW_MJS
             ++ [DQUOTE] ++ lit " agent "
             ++ lit "--session-id " ++ session_id ++ lit " --message "
             ++ quoted_msg ++ lit " --json" in
  run_wsl_bash w cmd.

Definition play_audio_windows (w : world) (path : pystr) : io unit :=
  ff <- call (Run [lit "where"; lit "ffplay"]) (w_where w) ;;
  if returncode ff =? 0
  then
    call (Run [lit "ffplay"; lit "-nodisp"; lit "-autoexit"; lit "-loglevel";
               lit "error"; path]) (w_player w) ;;
    ret tt
  else
    call (Run [lit "powershell"; lit "-NoProfile"; lit "-Command";
               lit "Start-Process '" ++ path ++ lit "'"]) (w_player w) ;;
    ret tt.

Definition nonempty (s : pystr) : bool :=
  match s with [] => false | _ => true end.

(** [" ".join(s.text.strip() for s in segments
               if s.text and s.text.strip()).strip()] *)
Definition segments_text (segments : list pystr) : pystr :=
  strip (join (lit " ")
           (map strip
              (filter (fun s => nonempty s && nonempty (strip s)) segments))).

Definition transcribe_audio (w : world) (wav_path : pystr) : io pystr :=
  segments <- call (Transcribe wav_path) (w_segments w) ;;
  let text := segments_text segments in
  ret (clean_text text).

(* ================================================================== *)
(** ** Main loop *)
(* ================================================================== *)

(** The class [[a-zA-Z0-9]]. *)
Definition is_alnum : Re.cls :=
  fun c => Re.range (chr "a") (chr "z") c
           || Re.range (chr "A") (chr "Z") c
           || Re.range (chr "0") (chr "9") c.

(** [r"[a-zA-Z0-9]"] *)
Definition alnum_re : Re.pattern := [Re.One is_alnum].

(** [proc.stderr[:1200] if proc.stderr else default] *)
Definition stderr_snippet (proc : completed) (default : string) : pystr :=
  if nonempty (stderr proc) then slice_to 1200 (stderr proc) else lit default.

(** Lines 151 to 159: the transcript quality gates. The result is the line
    that is printed before [continue], or [None] when the transcript
    passes. *)
Definition quality_gate (py : pylib) (text : pystr) : option pystr :=
  if negb (nonempty text) then
    Some (lit "Didn't catch that.")
  else if negb (Re.search alnum_re text) then
    Some (lit "Heard only noise/punctuation, skipping.")
  else if (List.length (split text) <? 2)%nat then
    Some (lit "Too short, skipping: " ++ repr py text)
  else None.

(** Lines 195 to 205: clean the reply, print it, synthesize and play. *)
Definition speak (w : world) (reply : pystr) : io control :=
  (* 5) Clean output for terminal + TTS *)
  let reply := strip_emoji (clean_text reply) in
  let reply := encode_ascii_ignore reply in
  print [lit "Mina:"; reply] ;;
  (* 6) Synthesize + play TTS *)
  let spoken := slice_to 500 reply in
  call (Run [lit "edge-tts"; lit "--voice"; VOICE; lit "--text"; spoken;
             lit "--write-media"; lit "reply.mp3"]) (w_tts w) ;;
  play_audio_windows w (lit "reply.mp3") ;;
  ret Continue.

(** Lines 167 to 205: what the loop does with the result of the bridge.
    [continue] is [ret Continue]. *)
Definition respond (py : pylib) (w : world) (proc : completed) : io control :=
  if negb (returncode proc =? 0) then
    print [lit "WSL/OpenClaw failed:"] ;;
    print [stderr_snippet proc "(no stderr)"] ;;
    ret Continue
  else if negb (nonempty (stdout proc)) then
    print [lit "No stdout from WSL OpenClaw call."] ;;
    print [lit "stderr:"; stderr_snippet proc "(none)"] ;;
    ret Continue
  else
  (* 4) Parse OpenClaw JSON reply *)
  parsed <- try_except
              (data <- lift (json_loads py (stdout proc)) ;; ret (Some data))
              is_Exception
              (fun _ =>
                 print [lit "Could not parse JSON from WSL."] ;;
                 print [lit "stdout:"; slice_to 1200 (stdout proc)] ;;
                 print [lit "stderr:"; stderr_snippet proc "(none)"] ;;
                 ret None) ;;
  match parsed with
  | None => ret Continue
  | Some data =>
      reply <- lift (select_reply data) ;;
      speak w reply
  end.

(** Lines 150 to 205: what the loop does with the transcript. *)
Definition converse (py : pylib) (w : world) (text : pystr) : io control :=
  match quality_gate py text with
  | Some line => print [line] ;; ret Continue
  | None =>
      print [lit "You:"; text] ;;
      (* 3) Ask Mina via WSL OpenClaw *)
      print [lit "Asking Mina via WSL..."] ;;
      proc <- ask_mina_via_wsl py w text SESSION_ID ;;
      respond py w proc
  end.

(** The body of the [try] of one iteration. *)
Definition turn_body (py : pylib) (w : world) : io control :=
  call (Input ([NEWLINE] ++ lit "Press Enter to speak (Ctrl+C to quit)... "))
       (w_input w) ;;
  (* 1) Record mic audio *)
  print [lit "Recording 8s..."] ;;
  call (Capture (SECONDS * SR) SR INPUT_DEVICE (lit "mic.wav")) (w_capture w) ;;
  (* 2) Transcribe speech locally *)
  print [lit "Transcribing..."] ;;
  text <- transcribe_audio w (lit "mic.wav") ;;
  converse py w text.

(** The [except] clauses of the loop: what is printed, and whether the
    loop goes on. *)
Definition handlers (r : result control) : list event * control :=
  match r with
  | Ok c => ([], c)
  | Raise EOFError =>
      ([Print [[NEWLINE] ++ lit "Input stream closed. Exiting."]], Break)
  | Raise KeyboardInterrupt =>
      ([Print [[NEWLINE] ++ lit "Bye."]], Break)
  | Raise (Error name msg) =>
      ([Print [lit "Unexpected error: " ++ name ++ lit ": " ++ msg]], Continue)
  end.

(** One iteration of [while True]: the body with its three handlers. Every
    exception is handled, so an iteration always ends in [continue] or
    [break]. *)
Definition turn (py : pylib) (w : world) : list event * control :=
  let (t, r) := turn_body py w in
  let (t', c) := handlers r in
  (t ++ t', c).

Close Scope io_scope.

(** Where the loop is after the scripted iterations. *)
Inductive loop_state :=
| AwaitUserCue     (* at the top of the loop, about to call [input] *)
| Shutdown.        (* left by [break] *)

(** [while True], run against the answers of the outside for the first
    iterations. *)
Fixpoint loop (py : pylib) (ws : list world) : list event * loop_state :=
  match ws with
  | [] => ([], AwaitUserCue)
  | w :: ws' =>
      match turn py w with
      | (t, Continue) => let (t', st) := loop py ws' in (t ++ t', st)
      | (t, Break) => (t, Shutdown)
      end
  end.

(** [main], with the model loaded: the two lines around the loading of the
    model, then the loop. *)
Definition main (py : pylib) (ws : list world) : list event * loop_state :=
  let (t, st) := loop py ws in
  ([Print [lit "Loading STT model..."];
    LoadModel (lit "small.en") (lit "cpu") (lit "int8");
    Print [lit "Ready."]] ++ t, st).

(* ================================================================== *)
(** ** Properties used in the statements *)
(* ================================================================== *)

(** The first character, if any, is not whitespace. *)
Definition starts_clean (s : pystr) : Prop :=
  match s with
  | c :: _ => is_space c = false
  | [] => True
  end.

(** The last character, if any, is not whitespace. *)
Definition ends_clean (s : pystr) : Prop := starts_clean (rev s).

(** Every whitespace character is a plain space and is not followed by
    whitespace. *)
Fixpoint single_spaced (s : pystr) : Prop :=
  match s with
  | [] => True
  | c :: s' =>
      (is_space c = true -> c = SPACE /\ starts_clean s') /\ single_spaced s'
  end.

(** The Basic Multilingual Plane: U+0000 to U+FFFF. *)
Definition is_bmp (c : codepoint) : bool := c <? 0x10000.

(** The text given to edge-tts by a call of [subprocess.run]. *)
Definition tts_text (e : event) : option pystr :=
  match e with
  | Run (prog :: _ :: _ :: _ :: text :: _) =>
      if pystr_eqb prog (lit "edge-tts") then Some text else None
  | _ => None
  end.

(** The texts that were given to synthesis, in order. *)
Definition synthesized (t : list event) : list pystr :=
  flat_map (fun e => match tts_text e with Some x => [x] | None => [] end) t.

(** Synthesis was invoked: edge-tts was run. *)
Definition is_synthesis (e : event) : bool :=
  match e with
  | Run (prog :: _) => pystr_eqb prog (lit "edge-tts")
  | _ => false
  end.

(** Playback was attempted: [play_audio_windows] starts by looking for
    ffplay and then runs ffplay or powershell. *)
Definition is_playback (e : event) : bool :=
  match e with
  | Run (prog :: _) =>
      pystr_eqb prog (lit "where") || pystr_eqb prog (lit "ffplay")
      || pystr_eqb prog (lit "powershell")
  | _ => false
  end.

(** The bridge was invoked: wsl.exe was run. *)
Definition is_bridge_call (e : event) : bool :=
  match e with
  | Run (prog :: _) => pystr_eqb prog (lit "wsl.exe")
  | _ => false
  end.

(** Synthesis reports success: the call of edge-tts returns with exit
    status 0. *)
Definition synthesis_succeeded (w : world) : bool :=
  match w_tts w with
  | Ok c => returncode c =? 0
  | Raise _ => false
  end.

(** The events of a turn up to the transcript. *)
Definition listen_events : list event :=
  [Input ([NEWLINE] ++ lit "Press Enter to speak (Ctrl+C to quit)... ");
   Print [lit "Recording 8s..."];
   Capture 128000 16000 1 (lit "mic.wav");
   Print [lit "Transcribing..."];
   Transcribe (lit "mic.wav")].

(** The user gave the cue, the capture worked and the transcript of the
    turn is [text]. *)
Definition hears (w : world) (text : pystr) : Prop :=
  w_input w = Ok tt /\ w_capture w = Ok tt /\
  exists segments,
    w_segments w = Ok segments /\ text = clean_text (segments_text segments).

(** The events of an accepted transcript up to the call of the bridge. *)
Definition ask_events (py : pylib) (w : world) (text : pystr) : list event :=
  [Print [lit "You:"; text]; Print [lit "Asking Mina via WSL..."]]
  ++ fst (ask_mina_via_wsl py w text SESSION_ID).

(** The turn got the transcript [text] through the gates and the bridge
    returned [proc]. *)
Definition asks (py : pylib) (w : world) (text : pystr) (proc : completed)
  : Prop :=
  hears w text /\ quality_gate py text = None /\ w_wsl w = Ok proc.

(** The turn stopped after the bridge with the lines [diagnostic] and went
    back to the top of the loop. *)
Definition aborts_with (py : pylib) (w : world) (text : pystr)
  (diagnostic : list event) : Prop :=
  turn py w = (listen_events ++ ask_events py w text ++ diagnostic, Continue).

(** The turn got [reply] selected from the answer of the bridge. *)
Definition gets_reply (py : pylib) (w : world) (text : pystr)
  (proc : completed) (reply : pystr) : Prop :=
  asks py w text proc /\ returncode proc = 0 /\ stdout proc <> [] /\
  exists data,
    json_loads py (stdout proc) = Ok data /\ select_reply data = Ok reply.

(** The example of the specification: "caf", e with acute accent, a space,
    U+2615 (hot beverage), a space, "test". *)
Definition cafe_input : pystr :=
  lit "caf" ++ [0xE9; SPACE; 0x2615; SPACE] ++ lit "test".

(** An answer of the agent with one payload, as a Python value and as
    the JSON text that the bridge prints. *)
Definition demo_document (text : pystr) : pyval :=
  PDict [(lit "result",
          PDict [(lit "payloads", PList [PDict [(lit "text", PStr text)]])])].

Definition quoted (s : pystr) : pystr := [DQUOTE] ++ s ++ [DQUOTE].

Definition demo_json (text : pystr) : pystr :=
  lit "{" ++ quoted (lit "result") ++ lit ": {" ++ quoted (lit "payloads")
  ++ lit ": [{" ++ quoted (lit "text") ++ lit ": " ++ quoted text ++ lit "}]}}".

(** A stand-in for the Python library, for the examples, right on what the
    examples give it: [json.loads] knows the one document [demo_json text]
    and rejects the rest; [json.dumps] and [repr] put quotes around a text
    of plain letters. *)
Definition demo_lib (text : pystr) : pylib :=
  {| json_loads := fun s =>
       if pystr_eqb s (demo_json text) then Ok (demo_document text)
       else Raise (Error (lit "JSONDecodeError")
                         (lit "Expecting value: line 1 column 1 (char 0)"));
     json_dumps := quoted;
     repr := fun s => lit "'" ++ s ++ lit "'" |}.

Definition exited (rc : Z) : completed :=
  {| returncode := rc; stdout := []; stderr := [] |}.

(** What the bridge returns when the agent has answered [text]. *)
Definition demo_answer (text : pystr) : completed :=
  {| returncode := 0; stdout := demo_json text; stderr := [] |}.

(** A turn in which every call to the outside returns: the bridge returns
    [proc] and edge-tts exits with [tts_rc]. *)
Definition demo_world (proc : completed) (tts_rc : Z) : world :=
  {| w_input := Ok tt;
     w_capture := Ok tt;
     w_segments := Ok [lit " Turn on"; lit " the lights."];
     w_wsl := Ok proc;
     w_tts := Ok (exited tts_rc);
     w_where := Ok (exited 0);
     w_player := Ok (exited 0) |}.

(** The text of a payload of the answer: the string under ["text"], and
    the empty string when there is none or it is null. *)
Definition text_field (p : pyval) : pystr :=
  match p with
  | PDict d =>
      match lookup (lit "text") d with
      | Some (PStr s) => s
      | _ => []
      end
  | _ => []
  end.

(** A payload as the protocol of the bridge has it: an object whose
    ["text"], when present, is a string or a value that counts as false
    (null, for instance). *)
Definition payload_shaped (p : pyval) : Prop :=
  exists d,
    p = PDict d
    /\ (lookup (lit "text") d = None
        \/ exists v, lookup (lit "text") d = Some v
                     /\ (truthy v = false \/ exists s, v = PStr s)).


(** An answer of the agent with the payloads [payloads]. *)
Definition answer_with (payloads : list pyval) : pyval :=
  PDict [(lit "result", PDict [(lit "payloads", PList payloads)])].

(** A payload with the text [s]. *)
Definition payload (s : pystr) : pyval := PDict [(lit "text", PStr s)].

(** What it means for a string to match a pattern, as a relation: each
    atom takes one character of its class, each repetition a run of
    characters of its class. *)
Inductive matches : Re.pattern -> pystr -> Prop :=
| matches_nil : matches [] []
| matches_one p pat c s :
    p c = true -> matches pat s -> matches (Re.One p :: pat) (c :: s)
| matches_many p pat run s :
    Forall (fun c => p c = true) run -> matches pat s ->
    matches (Re.Many p :: pat) (run ++ s).

(** After each repetition, the rest of the pattern cannot start with a
    character of the repeated class: the repetition then has one way only
    to end. *)
Fixpoint unambiguous (pat : Re.pattern) : Prop :=
  match pat with
  | [] => True
  | Re.One _ :: pat' => unambiguous pat'
  | Re.Many p :: pat' =>
      (forall c s, p c = true -> Re.match_len pat' (c :: s) = None)
      /\ unambiguous pat'
  end.

(** The markdown marks that [clean_text] takes out: backtick, asterisk,
    underscore, hash, closing angle bracket, tilde. *)
Definition is_markdown (c : codepoint) : bool :=
  (c =? 96) || (c =? 42) || (c =? 95) || (c =? 35) || (c =? 62) || (c =? 126).

(** A bracketed reply-to tag: two opening brackets, whitespace if any, the
    word reply_to in any mix of upper and lower case, any characters but a
    closing bracket, two closing brackets. *)
Definition is_reply_tag (t : pystr) : Prop :=
  exists ws word body,
    t = lit "[[" ++ ws ++ word ++ body ++ lit "]]"
    /\ Forall (fun c => is_space c = true) ws
    /\ map Re.to_lower word = lit "reply_to"
    /\ Forall (fun c => c <> chr "]") body.

(** [tags_removed s out]: [out] is [s] read from left to right without its
    reply-to tags; a character stays when no tag starts at it. *)
Inductive tags_removed : pystr -> pystr -> Prop :=
| tags_removed_nil : tags_removed [] []
| tags_removed_tag t rest out :
    is_reply_tag t -> tags_removed rest out -> tags_removed (t ++ rest) out
| tags_removed_char c rest out :
    (forall t r, c :: rest = t ++ r -> ~ is_reply_tag t) ->
    tags_removed rest out -> tags_removed (c :: rest) (c :: out).

(** Each em-dash and each en-dash becomes a comma and a space. *)
Definition dashes_to_commas (s : pystr) : pystr :=
  flat_map (fun c => if (c =? EM_DASH) || (c =? EN_DASH) then lit ", " else [c]) s.

(** [sub] occurs in [s] as a run of consecutive characters. *)
Definition occurs (sub s : pystr) : Prop :=
  exists before after, s = before ++ sub ++ after.

(** Collapsing every run of whitespace to one space, written directly: a
    whitespace character is dropped when more whitespace follows and becomes
    a space otherwise. *)
Fixpoint collapse_ws (s : pystr) : pystr :=
  match s with
  | [] => []
  | c :: s' =>
      if is_space c
      then match s' with
           | c' :: _ => if is_space c' then collapse_ws s'
                        else SPACE :: collapse_ws s'
           | [] => [SPACE]
           end
      else c :: collapse_ws s'
  end.

(* ================================================================== *)
(** ** stt_test.py *)
(* ================================================================== *)

(** [" ".join(s.text.strip() for s in segments if s.text.strip())] *)
Definition stt_test_text (segments : list pystr) : pystr :=
  join (lit " ") (map strip (filter (fun s => nonempty (strip s)) segments)).

(** [text if text else "(nothing)"]: what is printed after ["Heard:"]. *)
Definition stt_test_heard (segments : list pystr) : pystr :=
  let text := stt_test_text segments in
  if nonempty text then text else lit "(nothing)".

(* ================================================================== *)
(** ** More properties used in the statements *)
(* ================================================================== *)

(** The calls to the outside that a turn can make, in the order of the
    pipeline. *)
Inductive stage :=
| AtCue | AtCapture | AtTranscribe | AtBridge | AtSynthesis | AtWhere
| AtPlayer.

Definition pipeline : list stage :=
  [AtCue; AtCapture; AtTranscribe; AtBridge; AtSynthesis; AtWhere; AtPlayer].

Definition stage_of (e : event) : option stage :=
  match e with
  | Input _ => Some AtCue
  | Capture _ _ _ _ => Some AtCapture
  | Transcribe _ => Some AtTranscribe
  | Run (prog :: _) =>
      if pystr_eqb prog (lit "wsl.exe") then Some AtBridge
      else if pystr_eqb prog (lit "edge-tts") then Some AtSynthesis
      else if pystr_eqb prog (lit "where") then Some AtWhere
      else if pystr_eqb prog (lit "ffplay") || pystr_eqb prog (lit "powershell")
           then Some AtPlayer
      else None
  | _ => None
  end.

(** The calls of a trace, in order; printed lines are left out. *)
Definition stages (t : list event) : list stage :=
  flat_map (fun e => match stage_of e with Some s => [s] | None => [] end) t.

Definition is_ffplay (e : event) : bool :=
  match e with
  | Run (prog :: _) => pystr_eqb prog (lit "ffplay")
  | _ => false
  end.

Definition is_powershell (e : event) : bool :=
  match e with
  | Run (prog :: _) => pystr_eqb prog (lit "powershell")
  | _ => false
  end.

(** The two exceptions that the loop answers with [break]. *)
Definition interrupting (e : exn) : bool :=
  match e with
  | EOFError | KeyboardInterrupt => true
  | Error _ _ => false
  end.

(** The call returns, or raises an error that is not one of the two. *)
Definition uninterrupted {A : Type} (r : result A) : Prop :=
  match r with
  | Ok _ => True
  | Raise e => interrupting e = false
  end.

(** A text on which [clean_text] has nothing to do. *)
Definition clean (s : pystr) : Prop :=
  (forall c, In c s ->
             is_markdown c = false
             /\ c <> EM_DASH /\ c <> EN_DASH /\ c <> NEWLINE)
  /\ single_spaced s /\ starts_clean s /\ ends_clean s.

(** The events of the calls to the outside after the bridge. *)
Definition tts_event (spoken : pystr) : event :=
  Run [lit "edge-tts"; lit "--voice"; VOICE; lit "--text"; spoken;
       lit "--write-media"; lit "reply.mp3"].

Definition where_event : event := Run [lit "where"; lit "ffplay"].

Definition ffplay_event (path : pystr) : event :=
  Run [lit "ffplay"; lit "-nodisp"; lit "-autoexit"; lit "-loglevel";
       lit "error"; path].

Definition powershell_event (path : pystr) : event :=
  Run [lit "powershell"; lit "-NoProfile"; lit "-Command";
       lit "Start-Process '" ++ path ++ lit "'"].

(** The value of a call is dropped; what it raises is kept. *)
Definition finished {A B : Type} (r : result A) (b : B) : result B :=
  match r with
  | Ok _ => Ok b
  | Raise e => Raise e
  end.

(** The ways through [play_audio_windows]: its events and its result. *)
Inductive play_path (w : world) (path : pystr)
  : list event -> result unit -> Prop :=
| play_no_where e :
    w_where w = Raise e -> play_path w path [where_event] (Raise e)
| play_ffplay ff :
    w_where w = Ok ff -> returncode ff = 0 ->
    play_path w path [where_event; ffplay_event path] (finished (w_player w) tt)
| play_powershell ff :
    w_where w = Ok ff -> returncode ff <> 0 ->
    play_path w path [where_event; powershell_event path]
      (finished (w_player w) tt).

(** The ways through lines 195 to 205. *)
Inductive speak_path (w : world) (reply : pystr)
  : list event -> result control -> Prop :=
| speak_no_tts e :
    w_tts w = Raise e ->
    speak_path w reply
      [Print [lit "Mina:"; normalize_reply reply];
       tts_event (firstn 500 (normalize_reply reply))]
      (Raise e)
| speak_play c t r :
    w_tts w = Ok c -> play_path w (lit "reply.mp3") t r ->
    speak_path w reply
      ([Print [lit "Mina:"; normalize_reply reply];
        tts_event (firstn 500 (normalize_reply reply))] ++ t)
      (finished r Continue).

(** The ways through lines 167 to 205. *)
Inductive respond_path (py : pylib) (w : world) (proc : completed)
  : list event -> result control -> Prop :=
| respond_status :
    returncode proc <> 0 ->
    respond_path py w proc
      [Print [lit "WSL/OpenClaw failed:"];
       Print [stderr_snippet proc "(no stderr)"]]
      (Ok Continue)
| respond_silent :
    returncode proc = 0 -> stdout proc = [] ->
    respond_path py w proc
      [Print [lit "No stdout from WSL OpenClaw call."];
       Print [lit "stderr:"; stderr_snippet proc "(none)"]]
      (Ok Continue)
| respond_unparsed e :
    returncode proc = 0 -> stdout proc <> [] ->
    json_loads py (stdout proc) = Raise e -> is_Exception e = true ->
    respond_path py w proc
      [Print [lit "Could not parse JSON from WSL."];
       Print [lit "stdout:"; firstn 1200 (stdout proc)];
       Print [lit "stderr:"; stderr_snippet proc "(none)"]]
      (Ok Continue)
| respond_interrupted e :
    returncode proc = 0 -> stdout proc <> [] ->
    json_loads py (stdout proc) = Raise e -> is_Exception e = false ->
    respond_path py w proc [] (Raise e)
| respond_unselected data e :
    returncode proc = 0 -> stdout proc <> [] ->
    json_loads py (stdout proc) = Ok data -> select_reply data = Raise e ->
    respond_path py w proc [] (Raise e)
| respond_spoken data reply t r :
    returncode proc = 0 -> stdout proc <> [] ->
    json_loads py (stdout proc) = Ok data -> select_reply data = Ok reply ->
    speak_path w reply t r ->
    respond_path py w proc t r.

(** The ways through the body of the [try]. *)
Inductive turn_path (py : pylib) (w : world)
  : list event -> result control -> Prop :=
| turn_no_cue e :
    w_input w = Raise e ->
    turn_path py w (firstn 1 listen_events) (Raise e)
| turn_no_capture e :
    w_input w = Ok tt -> w_capture w = Raise e ->
    turn_path py w (firstn 3 listen_events) (Raise e)
| turn_no_transcript e :
    w_input w = Ok tt -> w_capture w = Ok tt -> w_segments w = Raise e ->
    turn_path py w listen_events (Raise e)
| turn_rejected text line :
    hears w text -> quality_gate py text = Some line ->
    turn_path py w (listen_events ++ [Print [line]]) (Ok Continue)
| turn_no_bridge text e :
    hears w text -> quality_gate py text = None -> w_wsl w = Raise e ->
    turn_path py w (listen_events ++ ask_events py w text) (Raise e)
| turn_answered text proc t r :
    asks py w text proc -> respond_path py w proc t r ->
    turn_path py w (listen_events ++ ask_events py w text ++ t) r.

(** A segment with nothing but whitespace. *)
Definition blank (s : pystr) : Prop := strip s = [].

(** A stand-in for the Python library whose [json.loads] knows the one
    text [json], with value [document]. *)
Definition knowing (json : pystr) (document : pyval) : pylib :=
  {| json_loads := fun s =>
       if pystr_eqb s json then Ok document
       else Raise (Error (lit "JSONDecodeError")
                         (lit "Expecting value: line 1 column 1 (char 0)"));
     json_dumps := quoted;
     repr := fun s => lit "'" ++ s ++ lit "'" |}.

(* ================================================================== *)
(** ** Facts about lists and strings *)
(* ================================================================== *)

Unset Implicit Arguments.

Section Strings.

Lemma list_length_ind (P : pystr -> Prop) :
  (forall s, (forall s', (List.length s' < List.length s)%nat -> P s') -> P s) ->
  forall s, P s.
Proof.
  intros step s.
  remember (List.length s) as n eqn:Hn.
  revert s Hn.
  induction n as [n IH] using lt_wf_ind.
  intros s ->. apply step. intros s' Hlt. eapply IH; eauto.
Qed.

Lemma take_drop_while p s : take_while p s ++ drop_while p s = s.
Proof.
  induction s as [|c s IH]; simpl; [reflexivity|].
  destruct (p c); simpl; [now rewrite IH | reflexivity].
Qed.

Lemma take_while_all p s : Forall (fun c => p c = true) (take_while p s).
Proof.
  induction s as [|c s IH]; simpl; [constructor|].
  destruct (p c) eqn:E; [constructor; assumption | constructor].
Qed.

Lemma drop_while_head p s :
  match drop_while p s with c :: _ => p c = false | [] => True end.
Proof.
  induction s as [|c s IH]; simpl; [exact I|].
  destruct (p c) eqn:E; [exact IH | exact E].
Qed.

Lemma drop_while_length p s :
  (List.length (drop_while p s) <= List.length s)%nat.
Proof.
  induction s as [|c s IH]; simpl; [lia|].
  destruct (p c); simpl; lia.
Qed.

Lemma drop_while_skipn p s :
  drop_while p s = skipn (List.length (take_while p s)) s.
Proof.
  induction s as [|c s IH]; simpl; [reflexivity|].
  destruct (p c); simpl; [exact IH | reflexivity].
Qed.

Lemma drop_while_In p s c : In c (drop_while p s) -> In c s.
Proof.
  induction s as [|a s IH]; simpl; [tauto|].
  destruct (p a); simpl; tauto.
Qed.

Lemma drop_while_id p s :
  match s with c :: _ => p c = false | [] => True end -> drop_while p s = s.
Proof.
  destruct s as [|c s]; simpl; [reflexivity|]. now intros ->.
Qed.

Lemma lstrip_starts_clean s : starts_clean (lstrip s).
Proof. exact (drop_while_head is_space s). Qed.

Lemma strip_In s c : In c (strip s) -> In c s.
Proof.
  unfold strip, rstrip, lstrip. intros H.
  apply in_rev in H. apply drop_while_In in H. apply in_rev in H.
  now apply drop_while_In in H.
Qed.

Lemma strip_ends_clean s : ends_clean (strip s).
Proof.
  unfold ends_clean, strip, rstrip. rewrite rev_involutive.
  apply lstrip_starts_clean.
Qed.

(** Dropping whitespace at the end keeps a clean start. *)
Lemma rstrip_starts_clean s : starts_clean s -> starts_clean (rstrip s).
Proof.
  unfold rstrip, lstrip.
  destruct s as [|c s]; [intros _; exact I|].
  simpl. intros Hc.
  assert (H : exists t, drop_while is_space (rev s ++ [c]) = t ++ [c]).
  { induction (rev s) as [|a l IH]; simpl.
    - rewrite Hc. now exists [].
    - destruct (is_space a); [exact IH|]. now exists (a :: l). }
  destruct H as [t ->]. rewrite rev_app_distr. simpl. exact Hc.
Qed.

Lemma strip_starts_clean s : starts_clean (strip s).
Proof. apply rstrip_starts_clean, lstrip_starts_clean. Qed.

Lemma strip_id s : starts_clean s -> ends_clean s -> strip s = s.
Proof.
  unfold strip, rstrip, lstrip, ends_clean, starts_clean.
  intros Hs He.
  rewrite (drop_while_id is_space s Hs).
  rewrite (drop_while_id is_space (rev s) He).
  apply rev_involutive.
Qed.

End Strings.


(* ================================================================== *)
(** ** The code on some inputs *)
(* ================================================================== *)

Example clean_text_example :
  clean_text (lit "[[ Reply_To: 42 ]] **Hi**  there" ++ [NEWLINE; EM_DASH]
              ++ lit "ok ")
  = lit "Hi there , ok".
Proof. vm_compute. reflexivity. Qed.

(** Of the two angle brackets, the class of [clean_text] has the closing
    one. *)
Example clean_text_angle_brackets :
  clean_text (lit "a <b> c") = lit "a <b c".
Proof. vm_compute. reflexivity. Qed.

Example split_example :
  split (lit "  turn on   lights ") = [lit "turn"; lit "on"; lit "lights"].
Proof. vm_compute. reflexivity. Qed.

(** An answer that is not an object has no [get]: the selection raises,
    and the handler of [main] ends the turn. *)
Example select_reply_list :
  select_reply (PList [])
  = Raise (Error (lit "AttributeError")
                 (lit "'list' object has no attribute 'get'")).
Proof. vm_compute. reflexivity. Qed.

(** A text that is a number has no [strip]. *)
Example select_reply_number :
  select_reply (answer_with [PDict [(lit "text", PInt 5)]])
  = Raise (Error (lit "AttributeError")
                 (lit "'int' object has no attribute 'strip'")).
Proof. vm_compute. reflexivity. Qed.

(** Two turns: one that is too short, then the end of the input. *)
Example main_example :
  snd (main (demo_lib [])
         [ {| w_input := Ok tt; w_capture := Ok tt; w_segments := Ok [lit "ok"];
              w_wsl := Ok (demo_answer []); w_tts := Ok (exited 0);
              w_where := Ok (exited 0); w_player := Ok (exited 0) |};
           {| w_input := Raise EOFError; w_capture := Ok tt;
              w_segments := Ok []; w_wsl := Ok (demo_answer []);
              w_tts := Ok (exited 0); w_where := Ok (exited 0);
              w_player := Ok (exited 0) |} ])
  = Shutdown.
Proof. vm_compute. reflexivity. Qed.

(* ================================================================== *)
(** ** Facts about the matcher *)
(* ================================================================== *)

Section ReFacts.

Import Re.

Lemma match_len_one_cons p pat c s :
  match_len (One p :: pat) (c :: s)
  = if p c then option_map S (match_len pat s) else None.
Proof. reflexivity. Qed.

Lemma match_len_many_nil p pat :
  match_len (Many p :: pat) [] = match_len pat [].
Proof. reflexivity. Qed.

Lemma match_len_many_cons p pat c s :
  match_len (Many p :: pat) (c :: s)
  = if p c
    then match match_len (Many p :: pat) s with
         | Some n => Some (S n)
         | None => match_len pat (c :: s)
         end
    else match_len pat (c :: s).
Proof. reflexivity. Qed.

(** A match lies inside the string. *)
Lemma match_len_le pat :
  forall s n, match_len pat s = Some n -> (n <= List.length s)%nat.
Proof.
  induction pat as [|a pat IH]; intros s n.
  - simpl. intros [= <-]. lia.
  - destruct a as [p|p].
    + destruct s as [|c s]; simpl; [discriminate|].
      destruct (p c); [|discriminate].
      destruct (match_len pat s) as [m|] eqn:E; simpl; [|discriminate].
      intros [= <-]. apply IH in E. lia.
    + revert n. induction s as [|c s IHs]; intros n.
      * rewrite match_len_many_nil. intros H. now apply IH in H.
      * rewrite match_len_many_cons. destruct (p c).
        -- destruct (match_len (Many p :: pat) s) as [m|] eqn:E.
           ++ intros [= <-]. specialize (IHs _ eq_refl). simpl. lia.
           ++ intros H. now apply IH in H.
        -- intros H. now apply IH in H.
Qed.

(** When the rest of the pattern cannot start with a character of the
    class, a repetition takes the whole run and never has to give a
    character back. *)
Lemma match_len_many_greedy p pat s :
  (forall c s', p c = true -> match_len pat (c :: s') = None) ->
  match_len (Many p :: pat) s
  = option_map (Nat.add (List.length (take_while p s)))
      (match_len pat (drop_while p s)).
Proof.
  intros Hexcl. induction s as [|c s IH].
  - rewrite match_len_many_nil. simpl. now destruct (match_len pat []).
  - rewrite match_len_many_cons. cbn [take_while drop_while].
    destruct (p c) eqn:E.
    + rewrite IH. destruct (match_len pat (drop_while p s)) as [m|] eqn:Em.
      * reflexivity.
      * cbn [option_map]. now apply Hexcl.
    + cbn [List.length]. now destruct (match_len pat (c :: s)).
Qed.

Lemma sub_from_skip pat repl k :
  forall s, (k <= List.length s)%nat ->
            sub_from pat repl k s = sub pat repl (skipn k s).
Proof.
  induction k as [|k IH]; intros s Hk.
  - reflexivity.
  - destruct s as [|c s]; simpl in Hk; [lia|].
    simpl. apply IH. lia.
Qed.

Lemma sub_nil pat repl : match_len pat [] = None -> sub pat repl [] = [].
Proof. unfold sub. simpl. now intros ->. Qed.

Lemma sub_cons_match pat repl c s k :
  match_len pat (c :: s) = Some (S k) ->
  sub pat repl (c :: s) = repl ++ sub pat repl (skipn k s).
Proof.
  intros H. unfold sub at 1. simpl sub_from. rewrite H.
  apply match_len_le in H. simpl in H.
  rewrite sub_from_skip by lia. reflexivity.
Qed.

Lemma sub_cons_nomatch pat repl c s :
  match_len pat (c :: s) = None ->
  sub pat repl (c :: s) = c :: sub pat repl s.
Proof. intros H. unfold sub. simpl sub_from. now rewrite H. Qed.

(** Deleting the characters of a class. *)
Lemma sub_one_delete p s :
  sub [One p] [] s = filter (fun c => negb (p c)) s.
Proof.
  induction s as [|c s IH].
  - reflexivity.
  - simpl filter. destruct (p c) eqn:E; simpl.
    + rewrite (sub_cons_match _ _ _ _ 0%nat).
      * exact IH.
      * rewrite match_len_one_cons, E. reflexivity.
    + rewrite sub_cons_nomatch.
      * now rewrite IH.
      * rewrite match_len_one_cons, E. reflexivity.
Qed.

(** Where the pattern matches nowhere, nothing is replaced. *)
Lemma sub_no_match pat repl s :
  (forall a b, s = a ++ b -> match_len pat b = None) ->
  sub pat repl s = s.
Proof.
  induction s as [|c s IH]; intros H.
  - apply sub_nil. now apply (H [] []).
  - rewrite sub_cons_nomatch.
    + f_equal. apply IH. intros a b ->. now apply (H (c :: a) b).
    + now apply (H [] (c :: s)).
Qed.

Lemma search_one p s : search [One p] s = existsb p s.
Proof.
  induction s as [|c s IH]; [reflexivity|].
  simpl search. simpl existsb. destruct (p c); simpl; [reflexivity | exact IH].
Qed.

End ReFacts.

(* ================================================================== *)
(** ** The stages of a turn *)
(* ================================================================== *)

Section Stages.

Variable py : pylib.
Variable w : world.

#[local] Arguments lit : simpl never.
#[local] Arguments clean_text : simpl never.
#[local] Arguments strip_emoji : simpl never.
#[local] Arguments segments_text : simpl never.
#[local] Arguments quality_gate : simpl never.
#[local] Arguments select_reply : simpl never.

Lemma bind_events {A B} (t : list event) (a : A) (k : A -> io B) :
  bind (t, Ok a) k = (t ++ fst (k a), snd (k a)).
Proof. unfold bind. now destruct (k a). Qed.

Lemma turn_body_hears text :
  hears w text ->
  turn_body py w
  = (listen_events ++ fst (converse py w text), snd (converse py w text)).
Proof.
  intros (Hi & Hc & segments & Hs & ->).
  unfold turn_body, transcribe_audio, call, print, emit, ret.
  rewrite Hi, Hc, Hs. unfold bind at 2 3 4 5 6. simpl.
  destruct (converse py w (clean_text (segments_text segments))) as [t r].
  reflexivity.
Qed.

Lemma converse_asks text proc :
  quality_gate py text = None -> w_wsl w = Ok proc ->
  converse py w text
  = (ask_events py w text ++ fst (respond py w proc), snd (respond py w proc)).
Proof.
  intros Hg Hw. unfold converse, ask_events. rewrite Hg.
  unfold ask_mina_via_wsl, run_wsl_bash, call, print, emit.
  rewrite Hw. simpl.
  destruct (respond py w proc) as [t r]. reflexivity.
Qed.

Lemma respond_reply proc data reply :
  returncode proc = 0 -> stdout proc <> [] ->
  json_loads py (stdout proc) = Ok data -> select_reply data = Ok reply ->
  respond py w proc = speak w reply.
Proof.
  intros Hrc Hout Hj Hsel. unfold respond.
  rewrite Hrc. simpl.
  destruct (stdout proc) as [|c out] eqn:E; [congruence|]. simpl.
  unfold lift. rewrite Hj. simpl. rewrite Hsel. simpl.
  destruct (speak w reply) as [t r]. reflexivity.
Qed.

(** A turn that gets a reply: its events are those of listening, of
    asking and of speaking. *)
Lemma turn_body_gets_reply text proc reply :
  gets_reply py w text proc reply ->
  turn_body py w
  = (listen_events ++ ask_events py w text ++ fst (speak w reply),
     snd (speak w reply)).
Proof.
  intros ((Hh & Hg & Hw) & Hrc & Hout & data & Hj & Hsel).
  rewrite (turn_body_hears _ Hh), (converse_asks _ _ Hg Hw).
  rewrite (respond_reply _ _ _ Hrc Hout Hj Hsel). reflexivity.
Qed.

End Stages.

(* ================================================================== *)
(** ** strip_emoji and the ASCII coercion *)
(* ================================================================== *)

Section Emoji.

Lemma strip_emoji_filter s :
  strip_emoji s = filter (fun c => negb (Re.range 0x10000 0x10FFFF c)) s.
Proof. apply sub_one_delete. Qed.

Lemma filter_id {A} (p : A -> bool) (l : list A) :
  Forall (fun x => p x = true) l -> filter p l = l.
Proof.
  induction 1 as [|x l Hx _ IH]; simpl; [reflexivity|].
  now rewrite Hx, IH.
Qed.

Lemma encode_ascii_ignore_ascii s :
  Forall (fun c => c < 128) (encode_ascii_ignore s).
Proof.
  unfold encode_ascii_ignore. apply Forall_forall. intros c Hc.
  apply filter_In in Hc. destruct Hc as [_ Hc]. unfold is_ascii in Hc. lia.
Qed.

End Emoji.

(** C7. [strip_emoji] keeps exactly the characters of the Basic Multilingual
    Plane, unchanged and in their order: on a string of code points, the
    result is the input without its code points U+10000 and above; a
    character is in the result if and only if it is in the input and
    below U+10000; a string inside the plane comes back as it is. The
    function is defined on every string. *)
Theorem strip_emoji_correct (s : pystr) :
  Forall valid_codepoint s ->
  strip_emoji s = filter is_bmp s
  /\ (forall c, In c (strip_emoji s) <-> In c s /\ c < 0x10000)
  /\ (Forall (fun c => c < 0x10000) s -> strip_emoji s = s).
Proof.
  intros Hvalid.
  assert (E : strip_emoji s = filter is_bmp s).
  { rewrite strip_emoji_filter. apply filter_ext_in. intros c Hc.
    rewrite Forall_forall in Hvalid. specialize (Hvalid c Hc).
    unfold valid_codepoint in Hvalid. unfold Re.range, is_bmp. lia. }
  split; [exact E|]. split.
  - intros c. rewrite E, filter_In. unfold is_bmp. intuition lia.
  - intros Hbmp. rewrite E. apply filter_id.
    eapply Forall_impl; [|exact Hbmp]. intros c Hc. now apply Z.ltb_lt.
Qed.

Lemma strip_emoji_correct_witness :
  strip_emoji [104; 0x1F600; 105; 0x2615; 0x10000; 0xFFFF]
  = [104; 105; 0x2615; 0xFFFF].
Proof.
  refine (proj1 (strip_emoji_correct [104; 0x1F600; 105; 0x2615; 0x10000; 0xFFFF] _)).
  repeat constructor; unfold valid_codepoint; lia.
Defined.

Lemma ascii_after_strip_emoji (x : pystr) :
  encode_ascii_ignore (strip_emoji x) = filter is_ascii x.
Proof.
  rewrite strip_emoji_filter. unfold encode_ascii_ignore.
  induction x as [|c x IH]; simpl; [reflexivity|].
  destruct (negb (Re.range 0x10000 0x10FFFF c)) eqn:E; simpl.
  - now rewrite IH.
  - rewrite IH. unfold is_ascii, Re.range in *.
    destruct (c <? 128) eqn:E'; [lia | reflexivity].
Qed.

(** C10. Stripping the supplementary planes before the ASCII coercion
    changes nothing: dropping the non-ASCII characters of [strip_emoji x]
    gives the same string as dropping those of [x]. *)
Theorem strip_emoji_redundant (x : pystr) :
  encode_ascii_ignore (strip_emoji x) = encode_ascii_ignore x.
Proof. apply ascii_after_strip_emoji. Qed.

(** C4, as the specification states it, fails: on the example the code
    does not give "caf test" with one space. *)
Lemma ascii_coercion_cafe_counterexample :
  normalize_reply cafe_input <> lit "caf test".
Proof. vm_compute. intros H. discriminate H. Qed.

(** C4, amended. The reply normalization ([clean_text], then
    [strip_emoji], then dropping every non-ASCII character) turns the
    example into "caf  test", with the two spaces that stood around the
    dropped U+2615: whitespace is collapsed before the characters are
    dropped. For every input the result is the string of the ASCII
    characters of [clean_text] of the input, in their order and with nothing
    put in the place of a dropped character, and every character of the
    result is below 128. *)
Theorem ascii_coercion_drops :
  normalize_reply cafe_input = lit "caf  test"
  /\ forall s,
       normalize_reply s = filter is_ascii (clean_text s)
       /\ Forall (fun c => c < 128) (normalize_reply s).
Proof.
  split; [vm_compute; reflexivity|].
  intros s. unfold normalize_reply. split.
  - apply ascii_after_strip_emoji.
  - apply encode_ascii_ignore_ascii.
Qed.

(* ================================================================== *)
(** ** Synthesis and playback *)
(* ================================================================== *)

Section Speak.

Variable w : world.

Lemma synthesized_app t1 t2 :
  synthesized (t1 ++ t2) = synthesized t1 ++ synthesized t2.
Proof. apply flat_map_app. Qed.

Lemma synthesized_handlers r : synthesized (fst (handlers r)) = [].
Proof. now destruct r as [c|[| |name msg]]. Qed.

Lemma synthesized_ask py text : synthesized (ask_events py w text) = [].
Proof. reflexivity. Qed.

Lemma synthesized_play path :
  synthesized (fst (play_audio_windows w path)) = [].
Proof.
  unfold play_audio_windows, call, bind, ret.
  destruct (w_where w) as [ff|e]; [|reflexivity].
  destruct (returncode ff =? 0); destruct (w_player w); reflexivity.
Qed.

(** What [speak] does: it prints the reply, runs edge-tts on its first 500
    characters and, when that call returns, goes on to the playback. *)
Lemma speak_events reply :
  let normalized := normalize_reply reply in
  let tts := Run [lit "edge-tts"; lit "--voice"; VOICE; lit "--text";
                  firstn 500 normalized; lit "--write-media"; lit "reply.mp3"] in
  speak w reply
  = match w_tts w with
    | Ok _ =>
        ([Print [lit "Mina:"; normalized]; tts]
           ++ fst (play_audio_windows w (lit "reply.mp3")),
         match snd (play_audio_windows w (lit "reply.mp3")) with
         | Ok _ => Ok Continue
         | Raise e => Raise e
         end)
    | Raise e => ([Print [lit "Mina:"; normalized]; tts], Raise e)
    end.
Proof.
  unfold speak, call, print, emit, bind, ret, normalize_reply, slice_to.
  destruct (w_tts w) as [c|e]; [|reflexivity].
  destruct (play_audio_windows w (lit "reply.mp3")) as [t [[]|e]]; simpl;
    now rewrite ?app_nil_r.
Qed.

Lemma synthesized_speak reply :
  synthesized (fst (speak w reply)) = [firstn 500 (normalize_reply reply)].
Proof.
  rewrite speak_events. destruct (w_tts w) as [c|e]; [|reflexivity].
  cbn [fst]. rewrite synthesized_app, synthesized_play. reflexivity.
Qed.

End Speak.

(** C9. In a turn that gets a reply, the one text passed to edge-tts is the
    first 500 characters of the normalized reply: the whole normalized reply
    when it has at most 500 characters, and for one of 600 characters its
    first 500, the last 100 being left out. *)
Theorem synthesis_truncates py w text proc reply :
  gets_reply py w text proc reply ->
  synthesized (fst (turn py w)) = [firstn 500 (normalize_reply reply)]
  /\ ((List.length (normalize_reply reply) <= 500)%nat ->
      firstn 500 (normalize_reply reply) = normalize_reply reply)
  /\ (List.length (normalize_reply reply) = 600%nat ->
      List.length (firstn 500 (normalize_reply reply)) = 500%nat
      /\ exists rest,
           List.length rest = 100%nat
           /\ normalize_reply reply = firstn 500 (normalize_reply reply) ++ rest).
Proof.
  intros H. split; [|split].
  - unfold turn. rewrite (turn_body_gets_reply _ _ _ _ _ H).
    pose proof (synthesized_handlers (snd (speak w reply))) as Hh.
    destruct (handlers (snd (speak w reply))) as [t' c]. cbn [fst] in Hh.
    cbn [fst]. rewrite !synthesized_app, synthesized_ask, synthesized_speak, Hh.
    reflexivity.
  - intros Hlen. now apply firstn_all2.
  - intros Hlen. split.
    + rewrite length_firstn. lia.
    + exists (skipn 500 (normalize_reply reply)). split.
      * rewrite length_skipn. lia.
      * symmetry. apply firstn_skipn.
Qed.

(** A reply of 600 letters: the first 500 are synthesized. *)
Lemma synthesis_truncates_witness :
  synthesized (fst (turn (demo_lib (repeat 97 600))
                      (demo_world (demo_answer (repeat 97 600)) 0)))
  = [repeat 97 500].
Proof.
  refine (proj1 (synthesis_truncates
                   (demo_lib (repeat 97 600))
                   (demo_world (demo_answer (repeat 97 600)) 0)
                   (lit "Turn on the lights.")
                   (demo_answer (repeat 97 600))
                   (repeat 97 600) _)).
  repeat split; try reflexivity.
  - exists [lit " Turn on"; lit " the lights."]. split; reflexivity.
  - discriminate.
  - exists (demo_document (repeat 97 600)). split; vm_compute; reflexivity.
Defined.

Section Gating.

Lemma existsb_playback_ask py w text :
  existsb is_playback (ask_events py w text) = false.
Proof. reflexivity. Qed.

Lemma existsb_synthesis_ask py w text :
  existsb is_synthesis (ask_events py w text) = false.
Proof. reflexivity. Qed.

Lemma existsb_playback_play w path :
  existsb is_playback (fst (play_audio_windows w path)) = true.
Proof.
  unfold play_audio_windows, call, bind.
  destruct (w_where w) as [ff|e]; [|reflexivity].
  destruct (returncode ff =? 0); destruct (w_player w); reflexivity.
Qed.

Lemma existsb_playback_handlers r :
  existsb is_playback (fst (handlers r)) = false.
Proof. now destruct r as [c|[| |name msg]]. Qed.

End Gating.

(** C8, as the specification states it, fails: when edge-tts exits with
    status 1, the turn still goes on to the playback. *)
Lemma synthesis_gating_counterexample :
  ~ (synthesis_succeeded (demo_world (demo_answer (lit "Lights are on.")) 1)
     = false ->
     existsb is_playback
       (fst (turn (demo_lib (lit "Lights are on."))
               (demo_world (demo_answer (lit "Lights are on.")) 1))) = false).
Proof. intros H. specialize (H eq_refl). vm_compute in H. discriminate H. Qed.

(** C8, amended. In a turn that gets a reply, playback is attempted if and
    only if the call of edge-tts returns, whatever its exit status; when
    the call raises an error, the error is reported and the turn ends
    there, back at the top of the loop, without the playback. *)
Theorem synthesis_gating py w text proc reply :
  gets_reply py w text proc reply ->
  (existsb is_playback (fst (turn py w)) = true <-> exists c, w_tts w = Ok c)
  /\ (forall name msg,
        w_tts w = Raise (Error name msg) ->
        aborts_with py w text
          [Print [lit "Mina:"; normalize_reply reply];
           Run [lit "edge-tts"; lit "--voice"; VOICE; lit "--text";
                firstn 500 (normalize_reply reply);
                lit "--write-media"; lit "reply.mp3"];
           Print [lit "Unexpected error: " ++ name ++ lit ": " ++ msg]]).
Proof.
  intros H. unfold aborts_with, turn.
  rewrite (turn_body_gets_reply _ _ _ _ _ H), speak_events.
  split.
  - destruct (w_tts w) as [c|e]; cbn [fst snd].
    + pose proof (existsb_playback_play w (lit "reply.mp3")) as Hp.
      destruct (play_audio_windows w (lit "reply.mp3")) as [t r].
      cbn [fst snd] in *.
      destruct (handlers _) as [t' c'].
      cbn [fst]. rewrite !existsb_app, existsb_playback_ask, Hp.
      split; [eauto | intros _; reflexivity].
    + pose proof (existsb_playback_handlers (Raise e)) as Hh.
      destruct (handlers (Raise e)) as [t' c']. cbn [fst] in *.
      rewrite !existsb_app, existsb_playback_ask, Hh.
      split; [discriminate | intros [c Hc]; discriminate Hc].
  - intros name msg ->. cbn [handlers fst snd].
    now rewrite <- !app_assoc.
Qed.

Lemma synthesis_gating_witness :
  existsb is_playback
    (fst (turn (demo_lib (lit "Lights are on."))
            (demo_world (demo_answer (lit "Lights are on.")) 1))) = true
  <-> exists c, w_tts (demo_world (demo_answer (lit "Lights are on.")) 1) = Ok c.
Proof.
  refine (proj1 (synthesis_gating
                   (demo_lib (lit "Lights are on."))
                   (demo_world (demo_answer (lit "Lights are on.")) 1)
                   (lit "Turn on the lights.")
                   (demo_answer (lit "Lights are on."))
                   (lit "Lights are on.") _)).
  repeat split; try reflexivity.
  - exists [lit " Turn on"; lit " the lights."]. split; reflexivity.
  - discriminate.
  - exists (demo_document (lit "Lights are on.")). split; reflexivity.
Defined.

(* ================================================================== *)
(** ** Failures of the bridge *)
(* ================================================================== *)

Section Bridge.

Variable py : pylib.
Variable w : world.

Lemma turn_asks text proc :
  asks py w text proc ->
  turn py w
  = (listen_events ++ ask_events py w text
       ++ fst (respond py w proc) ++ fst (handlers (snd (respond py w proc))),
     snd (handlers (snd (respond py w proc)))).
Proof.
  intros (Hh & Hg & Hw). unfold turn.
  rewrite (turn_body_hears _ _ _ Hh), (converse_asks _ _ _ _ Hg Hw).
  cbn [fst snd].
  destruct (handlers (snd (respond py w proc))) as [t' c].
  cbn [fst snd]. now rewrite <- !app_assoc.
Qed.

Lemma respond_exit_status proc :
  returncode proc <> 0 ->
  respond py w proc
  = ([Print [lit "WSL/OpenClaw failed:"];
      Print [stderr_snippet proc "(no stderr)"]], Ok Continue).
Proof.
  intros Hrc. unfold respond.
  destruct (returncode proc =? 0) eqn:E; [lia | reflexivity].
Qed.

Lemma respond_no_stdout proc :
  returncode proc = 0 -> stdout proc = [] ->
  respond py w proc
  = ([Print [lit "No stdout from WSL OpenClaw call."];
      Print [lit "stderr:"; stderr_snippet proc "(none)"]], Ok Continue).
Proof. intros Hrc Hout. unfold respond. rewrite Hrc, Hout. reflexivity. Qed.

Lemma respond_malformed proc e :
  returncode proc = 0 -> stdout proc <> [] ->
  json_loads py (stdout proc) = Raise e -> is_Exception e = true ->
  respond py w proc
  = ([Print [lit "Could not parse JSON from WSL."];
      Print [lit "stdout:"; firstn 1200 (stdout proc)];
      Print [lit "stderr:"; stderr_snippet proc "(none)"]], Ok Continue).
Proof.
  intros Hrc Hout Hj He. unfold respond. rewrite Hrc.
  destruct (stdout proc) as [|c out] eqn:E; [congruence|].
  cbn [negb Z.eqb nonempty]. unfold lift. rewrite Hj.
  unfold bind at 2. unfold try_except. rewrite He. reflexivity.
Qed.

(** A turn that stops after the bridge with printed lines only has run
    neither the synthesis nor the playback, and the loop goes on with the
    next iteration. *)
Lemma aborts_with_prints text lines :
  aborts_with py w text (map Print lines) ->
  snd (turn py w) = Continue
  /\ existsb is_synthesis (fst (turn py w)) = false
  /\ existsb is_playback (fst (turn py w)) = false
  /\ forall ws,
       loop py (w :: ws)
       = (fst (turn py w) ++ fst (loop py ws), snd (loop py ws)).
Proof.
  unfold aborts_with. intros Ht.
  assert (Hp : forall f, (forall l, f (Print l) = false) ->
                         existsb f (map Print lines) = false).
  { intros f Hf. clear Ht. induction lines as [|l ls IH]; simpl; [reflexivity|].
    now rewrite Hf, IH. }
  repeat split.
  - now rewrite Ht.
  - rewrite Ht. cbn [fst].
    rewrite !existsb_app, existsb_synthesis_ask, Hp; reflexivity.
  - rewrite Ht. cbn [fst].
    rewrite !existsb_app, existsb_playback_ask, Hp; reflexivity.
  - intros ws. cbn [loop]. rewrite Ht. cbn [fst].
    now destruct (loop py ws).
Qed.

End Bridge.

(** C2. When the bridge has returned, each of the three failures ends the
    turn with its own report and the loop goes on: a non-zero exit status
    (the first 1200 characters of stderr, when there are any), an empty
    stdout (the same snippet of stderr), a stdout that [json.loads] rejects
    (the first 1200 characters of stdout and the snippet of stderr). In all
    three cases neither edge-tts nor the player is run in the turn, the
    iteration ends in [continue] and the loop goes to its next iteration.
    The three reports start with three different lines. *)
Theorem bridge_failure_aborts py w text proc :
  asks py w text proc ->
  (returncode proc <> 0 ->
   aborts_with py w text
     [Print [lit "WSL/OpenClaw failed:"];
      Print [stderr_snippet proc "(no stderr)"]])
  /\ (returncode proc = 0 -> stdout proc = [] ->
      aborts_with py w text
        [Print [lit "No stdout from WSL OpenClaw call."];
         Print [lit "stderr:"; stderr_snippet proc "(none)"]])
  /\ (returncode proc = 0 -> stdout proc <> [] ->
      forall e, json_loads py (stdout proc) = Raise e -> is_Exception e = true ->
      aborts_with py w text
        [Print [lit "Could not parse JSON from WSL."];
         Print [lit "stdout:"; firstn 1200 (stdout proc)];
         Print [lit "stderr:"; stderr_snippet proc "(none)"]])
  /\ (returncode proc <> 0 \/ stdout proc = [] \/
      (exists e, json_loads py (stdout proc) = Raise e /\ is_Exception e = true) ->
      snd (turn py w) = Continue
      /\ existsb is_synthesis (fst (turn py w)) = false
      /\ existsb is_playback (fst (turn py w)) = false
      /\ forall ws,
           loop py (w :: ws)
           = (fst (turn py w) ++ fst (loop py ws), snd (loop py ws)))
  /\ (forall default,
        (stderr proc <> [] ->
         stderr_snippet proc default = firstn 1200 (stderr proc))
        /\ (stderr proc = [] -> stderr_snippet proc default = lit default))
  /\ (lit "WSL/OpenClaw failed:" <> lit "No stdout from WSL OpenClaw call."
      /\ lit "WSL/OpenClaw failed:" <> lit "Could not parse JSON from WSL."
      /\ lit "No stdout from WSL OpenClaw call."
         <> lit "Could not parse JSON from WSL.").
Proof.
  intros H.
  assert (A1 : returncode proc <> 0 ->
               aborts_with py w text
                 [Print [lit "WSL/OpenClaw failed:"];
                  Print [stderr_snippet proc "(no stderr)"]]).
  { intros Hrc. unfold aborts_with.
    rewrite (turn_asks _ _ _ _ H), (respond_exit_status _ _ _ Hrc).
    cbn [fst snd handlers]. now rewrite app_nil_r. }
  assert (A2 : returncode proc = 0 -> stdout proc = [] ->
               aborts_with py w text
                 [Print [lit "No stdout from WSL OpenClaw call."];
                  Print [lit "stderr:"; stderr_snippet proc "(none)"]]).
  { intros Hrc Hout. unfold aborts_with.
    rewrite (turn_asks _ _ _ _ H), (respond_no_stdout _ _ _ Hrc Hout).
    cbn [fst snd handlers]. now rewrite app_nil_r. }
  assert (A3 : returncode proc = 0 -> stdout proc <> [] ->
               forall e, json_loads py (stdout proc) = Raise e ->
                         is_Exception e = true ->
               aborts_with py w text
                 [Print [lit "Could not parse JSON from WSL."];
                  Print [lit "stdout:"; firstn 1200 (stdout proc)];
                  Print [lit "stderr:"; stderr_snippet proc "(none)"]]).
  { intros Hrc Hout e Hj He. unfold aborts_with.
    rewrite (turn_asks _ _ _ _ H), (respond_malformed _ _ _ _ Hrc Hout Hj He).
    cbn [fst snd handlers]. now rewrite app_nil_r. }
  split; [exact A1|]. split; [exact A2|]. split; [exact A3|].
  split; [|split].
  - intros Hfail.
    destruct (Z.eq_dec (returncode proc) 0) as [Hrc|Hrc].
    + destruct (stdout proc) as [|c out] eqn:Hout.
      * apply (aborts_with_prints _ _ text
                 [[lit "No stdout from WSL OpenClaw call."];
                  [lit "stderr:"; stderr_snippet proc "(none)"]]).
        now apply A2.
      * destruct Hfail as [Hf|[Hf|[e [Hj He]]]]; [contradiction|discriminate|].
        apply (aborts_with_prints _ _ text
                 [[lit "Could not parse JSON from WSL."];
                  [lit "stdout:"; firstn 1200 (c :: out)];
                  [lit "stderr:"; stderr_snippet proc "(none)"]]).
        apply (A3 Hrc ltac:(discriminate) e Hj He).
    + apply (aborts_with_prints _ _ text
               [[lit "WSL/OpenClaw failed:"];
                [stderr_snippet proc "(no stderr)"]]).
      now apply A1.
  - intros default. unfold stderr_snippet.
    destruct (stderr proc); split; intros; try reflexivity; congruence.
  - repeat split; vm_compute; discriminate.
Qed.

(** The bridge exits with status 1 and a line on stderr. *)
Lemma bridge_failure_aborts_witness :
  aborts_with (demo_lib [])
    (demo_world {| returncode := 1; stdout := []; stderr := lit "wsl: not found" |} 0)
    (lit "Turn on the lights.")
    [Print [lit "WSL/OpenClaw failed:"]; Print [lit "wsl: not found"]].
Proof.
  refine (proj1 (bridge_failure_aborts (demo_lib [])
                   (demo_world {| returncode := 1; stdout := [];
                                  stderr := lit "wsl: not found" |} 0)
                   (lit "Turn on the lights.")
                   {| returncode := 1; stdout := []; stderr := lit "wsl: not found" |}
                   _) _).
  - repeat split; try reflexivity.
    exists [lit " Turn on"; lit " the lights."]. split; reflexivity.
  - discriminate.
Defined.

(* ================================================================== *)
(** ** The transcript quality gates *)
(* ================================================================== *)

Section Gate.

Variable py : pylib.

Lemma existsb_false_iff {A} (p : A -> bool) (l : list A) :
  existsb p l = false <-> forall x, In x l -> p x = false.
Proof.
  induction l as [|a l IH]; simpl.
  - split; [intros _ x [] | reflexivity].
  - rewrite orb_false_iff, IH. split.
    + intros [Ha Hl] x [<-|Hx]; auto.
    + intros H. split; [apply H; now left | intros x Hx; apply H; now right].
Qed.

(** The gates reject exactly the empty transcripts, those without a letter
    or digit, and those with fewer than two words. *)
Lemma quality_gate_rejects text :
  quality_gate py text <> None
  <-> text = []
      \/ (forall c, In c text -> is_alnum c = false)
      \/ (List.length (split text) < 2)%nat.
Proof.
  unfold quality_gate, alnum_re. rewrite search_one.
  destruct text as [|c t]; cbn [nonempty negb].
  - split; [now left | discriminate].
  - destruct (existsb is_alnum (c :: t)) eqn:Ea; cbn [negb].
    + destruct (List.length (split (c :: t)) <? 2)%nat eqn:El.
      * split; [intros _ | discriminate].
        right. right. now apply Nat.ltb_lt.
      * split; [congruence|].
        intros [Hn|[Hn|Hn]].
        -- discriminate Hn.
        -- apply existsb_false_iff in Hn. congruence.
        -- apply Nat.ltb_lt in Hn. congruence.
    + split; [intros _ | discriminate].
      right. left. now apply existsb_false_iff.
Qed.

Variable w : world.

Lemma converse_rejected text line :
  quality_gate py text = Some line ->
  converse py w text = ([Print [line]], Ok Continue).
Proof. intros Hg. unfold converse. now rewrite Hg. Qed.

Lemma converse_accepted text :
  quality_gate py text = None ->
  exists rest, fst (converse py w text) = ask_events py w text ++ rest.
Proof.
  intros Hg. unfold converse, ask_events. rewrite Hg.
  unfold ask_mina_via_wsl, run_wsl_bash, call, print, emit.
  destruct (w_wsl w) as [proc|e].
  - destruct (respond py w proc) as [t r] eqn:Er.
    exists t. unfold bind. rewrite Er. reflexivity.
  - exists []. reflexivity.
Qed.

Lemma turn_hears text :
  hears w text ->
  turn py w
  = (listen_events ++ fst (converse py w text)
       ++ fst (handlers (snd (converse py w text))),
     snd (handlers (snd (converse py w text)))).
Proof.
  intros Hh. unfold turn. rewrite (turn_body_hears _ _ _ Hh).
  destruct (handlers (snd (converse py w text))) as [t' c].
  cbn [fst snd]. now rewrite <- app_assoc.
Qed.

End Gate.

(** C3. A turn with transcript [text] stops at the gates, with one printed
    line and back at the top of the loop, if and only if the transcript is
    empty, or has no character of [a-zA-Z0-9], or splits on whitespace
    into fewer than two words; otherwise the turn goes on to call the
    bridge. The gates reject the empty transcript, "???" and "ok", and let
    "turn on lights" through. *)
Theorem quality_gate_iff py w text :
  hears w text ->
  ((exists line, turn py w = (listen_events ++ [Print [line]], Continue))
   <-> text = []
       \/ (forall c, In c text -> is_alnum c = false)
       \/ (List.length (split text) < 2)%nat)
  /\ (quality_gate py text = None ->
      existsb is_bridge_call (fst (turn py w)) = true)
  /\ quality_gate py [] <> None
  /\ quality_gate py (lit "???") <> None
  /\ quality_gate py (lit "ok") <> None
  /\ quality_gate py (lit "turn on lights") = None.
Proof.
  intros Hh. split; [|split].
  - rewrite <- (quality_gate_rejects py text). split.
    + intros [line Ht] Hg.
      destruct (converse_accepted py w text Hg) as [rest Hrest].
      rewrite (turn_hears _ _ _ Hh), Hrest in Ht.
      apply (f_equal fst) in Ht. cbn [fst] in Ht.
      apply app_inv_head in Ht. discriminate Ht.
    + intros Hg. destruct (quality_gate py text) as [line|] eqn:E; [|congruence].
      exists line.
      rewrite (turn_hears _ _ _ Hh), (converse_rejected _ _ _ _ E).
      reflexivity.
  - intros Hg.
    destruct (converse_accepted py w text Hg) as [rest Hrest].
    rewrite (turn_hears _ _ _ Hh), Hrest. cbn [fst].
    rewrite !existsb_app. reflexivity.
  - repeat split; try discriminate; reflexivity.
Qed.

(** A turn in which only "ok" was heard. *)
Lemma quality_gate_iff_witness :
  exists line,
    turn (demo_lib [])
      {| w_input := Ok tt; w_capture := Ok tt; w_segments := Ok [lit " ok "];
         w_wsl := Ok (demo_answer []); w_tts := Ok (exited 0);
         w_where := Ok (exited 0); w_player := Ok (exited 0) |}
    = (listen_events ++ [Print [line]], Continue).
Proof.
  refine (proj2 (proj1 (quality_gate_iff (demo_lib []) _ (lit "ok") _)) _).
  - repeat split; try reflexivity.
    exists [lit " ok "]. split; reflexivity.
  - right. right. vm_compute. lia.
Defined.

(* ================================================================== *)
(** ** Reply selection *)
(* ================================================================== *)

Section Selection.

#[local] Arguments lit : simpl never.

Lemma payload_text_shaped p :
  payload_shaped p -> payload_text p = Ok (strip (text_field p)).
Proof.
  intros (d & -> & [H|(v & H & [Hv|[s ->]])]);
    unfold payload_text, py_get, text_field; rewrite H.
  - reflexivity.
  - cbn [rbind]. unfold py_or. rewrite Hv.
    destruct v as [| | | |s| |]; try reflexivity.
    destruct s; [reflexivity | discriminate Hv].
  - destruct s; reflexivity.
Qed.




End Selection.




(* ================================================================== *)
(** ** The matcher against the relation *)
(* ================================================================== *)

Section Matches.

Import Re.

Lemma take_while_run p run rest :
  Forall (fun c => p c = true) run ->
  match rest with c :: _ => p c = false | [] => True end ->
  take_while p (run ++ rest) = run /\ drop_while p (run ++ rest) = rest.
Proof.
  intros Hrun Hrest. induction Hrun as [|c run Hc _ IH].
  - destruct rest as [|c rest]; [now split|]. simpl. now rewrite Hrest.
  - simpl. rewrite Hc. destruct IH as [-> ->]. now split.
Qed.

(** What the matcher finds is a match. *)
Lemma match_len_sound pat :
  forall s n, match_len pat s = Some n ->
              exists t rest, s = t ++ rest /\ matches pat t /\ n = List.length t.
Proof.
  induction pat as [|a pat IH]; intros s n.
  - simpl. intros [= <-]. exists [], s. repeat split. constructor.
  - destruct a as [p|p].
    + destruct s as [|c s]; [discriminate|].
      rewrite match_len_one_cons. destruct (p c) eqn:Ec; [|discriminate].
      destruct (match_len pat s) as [m|] eqn:E; [|discriminate].
      intros [= <-]. destruct (IH _ _ E) as (t & rest & -> & Hm & ->).
      exists (c :: t), rest. repeat split. now constructor.
    + assert (Hpat : forall s n, match_len pat s = Some n ->
                exists t rest, s = t ++ rest /\ matches (Many p :: pat) t
                               /\ n = List.length t).
      { intros s0 n0 H0. destruct (IH _ _ H0) as (t & rest & -> & Hm & ->).
        exists t, rest. repeat split.
        apply (@matches_many p pat [] t); [constructor | assumption]. }
      revert n. induction s as [|c s IHs]; intros n.
      * rewrite match_len_many_nil. apply Hpat.
      * rewrite match_len_many_cons. destruct (p c) eqn:Ec; [|apply Hpat].
        destruct (match_len (Many p :: pat) s) as [m|] eqn:E; [|apply Hpat].
        intros [= <-].
        destruct (IHs _ eq_refl) as (t & rest & -> & Hm & ->).
        exists (c :: t), rest. repeat split.
        inversion Hm as [| |p' pat' run t' Hrun Ht' Epat Et]; subst.
        apply (@matches_many p pat (c :: run) t'); [now constructor | assumption].
Qed.

(** For an unambiguous pattern, a match at the start of the string is what
    the matcher finds. *)
Lemma match_len_complete pat :
  unambiguous pat ->
  forall t rest, matches pat t ->
                 match_len pat (t ++ rest) = Some (List.length t).
Proof.
  induction pat as [|a pat IH]; intros Hu t rest Hm.
  - inversion Hm. reflexivity.
  - destruct a as [p|p].
    + inversion Hm as [|p' pat' c t' Hc Ht'|]; subst.
      simpl app. rewrite match_len_one_cons, Hc.
      rewrite (IH Hu _ _ Ht'). reflexivity.
    + destruct Hu as [Hexcl Hu].
      inversion Hm as [| |p' pat' run t' Hrun Ht']; subst.
      rewrite match_len_many_greedy by exact Hexcl.
      pose proof (IH Hu _ rest Ht') as Hrest.
      assert (Hhead : match t' ++ rest with
                      | c :: _ => p c = false
                      | [] => True
                      end).
      { destruct (t' ++ rest) as [|c x] eqn:E; [exact I|].
        destruct (p c) eqn:Ec; [|reflexivity].
        rewrite (Hexcl c x Ec) in Hrest. discriminate. }
      rewrite <- app_assoc.
      destruct (take_while_run p run (t' ++ rest) Hrun Hhead) as [-> ->].
      rewrite Hrest. simpl. now rewrite length_app.
Qed.

Lemma matches_one_inv p pat t :
  matches (One p :: pat) t ->
  exists c t', t = c :: t' /\ p c = true /\ matches pat t'.
Proof. inversion 1; subst; eauto. Qed.

Lemma matches_many_inv p pat t :
  matches (Many p :: pat) t ->
  exists run t', t = run ++ t' /\ Forall (fun c => p c = true) run
                 /\ matches pat t'.
Proof. inversion 1; subst; eauto. Qed.

Lemma matches_nil_inv t : matches [] t -> t = [].
Proof. now inversion 1. Qed.

End Matches.

(* ================================================================== *)
(** ** The reply-to tags *)
(* ================================================================== *)

Section ReplyTags.

Import Re.

Lemma char_i_bracket (a : ascii) c :
  to_lower (chr a) = chr a -> (chr a < 97 \/ 122 < chr a) ->
  char_i a c = true -> c = chr a.
Proof.
  unfold char_i. intros -> Hrange H. apply Z.eqb_eq in H.
  unfold to_lower in H. destruct ((65 <=? c) && (c <=? 90)) eqn:E; lia.
Qed.

Lemma char_i_lower (a : ascii) c :
  char_i a c = true <-> to_lower c = to_lower (chr a).
Proof. unfold char_i. apply Z.eqb_eq. Qed.

Lemma not_char_iff (a : ascii) c : not_char a c = true <-> c <> chr a.
Proof.
  unfold not_char. rewrite negb_true_iff. apply Z.eqb_neq.
Qed.

Lemma space_not_r c : is_space c = true -> char_i "r" c = false.
Proof.
  unfold char_i. replace (to_lower (chr "r")) with 114 by reflexivity.
  unfold to_lower, is_space. intros H.
  destruct ((65 <=? c) && (c <=? 90)) eqn:E; lia.
Qed.

Lemma unambiguous_reply_tag : unambiguous reply_tag_re.
Proof.
  unfold reply_tag_re.
  cbn [unambiguous app literal_i map list_ascii_of_string].
  repeat split.
  - intros c s Hc. rewrite match_len_one_cons, (space_not_r c Hc). reflexivity.
  - intros c s Hc. rewrite match_len_one_cons.
    apply not_char_iff in Hc.
    destruct (char_i "]" c) eqn:E; [|reflexivity].
    apply char_i_bracket in E; [contradiction | reflexivity | vm_compute; now left].
Qed.

Ltac invert_matches :=
  repeat match goal with
    | H : matches (One _ :: _) _ |- _ =>
        apply matches_one_inv in H;
        let c := fresh "c" in let t := fresh "t" in let Hc := fresh "Hc" in
        destruct H as (c & t & -> & Hc & H)
    | H : matches (Many _ :: _) _ |- _ =>
        apply matches_many_inv in H;
        let run := fresh "run" in let t := fresh "t" in let Hr := fresh "Hr" in
        destruct H as (run & t & -> & Hr & H)
    | H : matches [] _ |- _ => apply matches_nil_inv in H; subst
    end.

(** The strings that the pattern of [clean_text] matches are the reply-to
    tags. *)
Lemma matches_reply_tag t : matches reply_tag_re t <-> is_reply_tag t.
Proof.
  unfold reply_tag_re.
  cbn [app literal_i map list_ascii_of_string].
  split.
  - intros H. invert_matches.
    apply char_i_bracket in Hc, Hc0, Hc9, Hc10;
      try reflexivity; try (vm_compute; now left).
    subst.
    exists run, [c1; c2; c3; c4; c5; c6; c7; c8], run0.
    repeat split.
    + assumption.
    + apply char_i_lower in Hc1, Hc2, Hc3, Hc4, Hc5, Hc6, Hc7, Hc8.
      cbn [map]. rewrite Hc1, Hc2, Hc3, Hc4, Hc5, Hc6, Hc7, Hc8. reflexivity.
    + eapply Forall_impl; [|exact Hr0]. intros c Hc. now apply not_char_iff.
  - intros (ws & word & body & -> & Hws & Hword & Hbody).
    change (lit "reply_to") with [114; 101; 112; 108; 121; 95; 116; 111] in Hword.
    destruct word as [|c1 [|c2 [|c3 [|c4 [|c5 [|c6 [|c7 [|c8 [|c9 word]]]]]]]]];
      try discriminate Hword.
    cbn [map] in Hword.
    injection Hword as H1 H2 H3 H4 H5 H6 H7 H8.
    change (lit "[[") with [91; 91]. change (lit "]]") with [93; 93].
    cbn [app].
    apply matches_one; [reflexivity|]. apply matches_one; [reflexivity|].
    apply matches_many; [exact Hws|].
    cbn [app].
    repeat (apply matches_one; [apply char_i_lower; assumption|]).
    apply matches_many.
    { eapply Forall_impl; [|exact Hbody]. intros c Hc. now apply not_char_iff. }
    apply matches_one; [reflexivity|]. apply matches_one; [reflexivity|].
    constructor.
Qed.

(** A reply-to tag has an underscore. *)
Lemma reply_tag_underscore t : is_reply_tag t -> In 95 t.
Proof.
  intros (ws & word & body & -> & _ & Hword & _).
  apply in_or_app. right. apply in_or_app. right. apply in_or_app. left.
  assert (H : In 95 (map to_lower word)) by (rewrite Hword; vm_compute; tauto).
  apply in_map_iff in H. destruct H as (c & Hc & Hin).
  unfold to_lower in Hc.
  destruct ((65 <=? c) && (c <=? 90)) eqn:E; [lia | now subst].
Qed.

(** The first [re.sub] of [clean_text] removes the reply-to tags. *)
Lemma sub_reply_tags s : tags_removed s (sub reply_tag_re [] s).
Proof.
  induction s as [s IH] using list_length_ind.
  destruct s as [|c s].
  - rewrite sub_nil by reflexivity. constructor.
  - destruct (match_len reply_tag_re (c :: s)) as [[|k]|] eqn:E.
    + apply match_len_sound in E. destruct E as (t & rest & _ & Hm & Hlen).
      destruct t; [|discriminate Hlen]. inversion Hm.
    + rewrite (sub_cons_match _ _ _ _ _ E). cbn [app].
      apply match_len_sound in E. destruct E as (t & rest & Hs & Hm & Hlen).
      assert (Hrest : skipn k s = rest).
      { change (skipn k s) with (skipn (S k) (c :: s)).
        rewrite Hs, Hlen, skipn_app, skipn_all, Nat.sub_diag. reflexivity. }
      rewrite Hrest, Hs. apply tags_removed_tag.
      * now apply matches_reply_tag.
      * apply IH. rewrite Hs, length_app. lia.
    + rewrite (sub_cons_nomatch _ _ _ _ E). apply tags_removed_char.
      * intros t r Hs Htag. apply matches_reply_tag in Htag.
        rewrite Hs, (match_len_complete _ unambiguous_reply_tag _ r Htag) in E.
        discriminate E.
      * apply IH. simpl. lia.
Qed.

End ReplyTags.

(* ================================================================== *)
(** ** clean_text *)
(* ================================================================== *)

Section CleanText.

Import Re.

(** The second [re.sub] deletes the markdown marks. *)
Lemma sub_markdown s :
  sub markdown_re [] s = filter (fun c => negb (is_markdown c)) s.
Proof.
  unfold markdown_re. rewrite sub_one_delete. apply filter_ext.
  intros c. unfold any_of, is_markdown.
  change (lit "`*_#>~") with [96; 42; 95; 35; 62; 126].
  cbn [existsb]. now rewrite orb_false_r, !orb_assoc.
Qed.

Lemma replace_map old new s :
  replace old [new] s = map (fun c => if c =? old then new else c) s.
Proof.
  unfold replace. induction s as [|c s IH]; simpl; [reflexivity|].
  rewrite IH. now destruct (c =? old).
Qed.

Lemma replace_absent old new s : ~ In old s -> replace old new s = s.
Proof.
  unfold replace. induction s as [|c s IH]; simpl; [reflexivity|].
  intros H. destruct (c =? old) eqn:E.
  - apply Z.eqb_eq in E. tauto.
  - simpl. f_equal. apply IH. tauto.
Qed.

(** The two replacements of dashes, one after the other. *)
Lemma replace_dashes s :
  replace EN_DASH (lit ", ") (replace EM_DASH (lit ", ") s)
  = dashes_to_commas s.
Proof.
  unfold replace, dashes_to_commas.
  induction s as [|c s IH]; [reflexivity|].
  cbn [flat_map]. rewrite flat_map_app, IH. f_equal.
  destruct (c =? EM_DASH) eqn:E1; [reflexivity|].
  cbn [flat_map orb]. now rewrite app_nil_r.
Qed.

(** A newline counts as whitespace for the collapse whether or not it was
    turned into a space before. *)
Lemma dashes_newlines s :
  dashes_to_commas (map (fun c => if c =? NEWLINE then SPACE else c) s)
  = map (fun c => if c =? NEWLINE then SPACE else c) (dashes_to_commas s).
Proof.
  unfold dashes_to_commas.
  induction s as [|c s IH]; [reflexivity|].
  cbn [map flat_map]. rewrite map_app, IH. f_equal.
  destruct (c =? NEWLINE) eqn:E.
  - apply Z.eqb_eq in E. subst. reflexivity.
  - destruct ((c =? EM_DASH) || (c =? EN_DASH)) eqn:E'; [reflexivity|].
    cbn [map]. now rewrite E.
Qed.

Lemma collapse_ws_map (f : Z -> Z) s :
  (forall c, is_space (f c) = is_space c) ->
  (forall c, is_space c = false -> f c = c) ->
  collapse_ws (map f s) = collapse_ws s.
Proof.
  intros Hsp Hid. induction s as [|c s IH]; [reflexivity|].
  cbn [map collapse_ws]. rewrite Hsp.
  destruct (is_space c) eqn:Ec.
  - destruct s as [|c' s]; [reflexivity|].
    cbn [map] in *. rewrite Hsp. destruct (is_space c'); now rewrite IH.
  - now rewrite IH, Hid.
Qed.

Lemma collapse_ws_newlines s :
  collapse_ws (map (fun c => if c =? NEWLINE then SPACE else c) s)
  = collapse_ws s.
Proof.
  apply collapse_ws_map; intros c.
  - destruct (c =? NEWLINE) eqn:E; [|reflexivity].
    apply Z.eqb_eq in E. now subst.
  - intros Hc. destruct (c =? NEWLINE) eqn:E; [|reflexivity].
    apply Z.eqb_eq in E. now subst.
Qed.

Lemma collapse_ws_cons2 c c' s :
  collapse_ws (c :: c' :: s)
  = if is_space c
    then if is_space c' then collapse_ws (c' :: s)
         else SPACE :: collapse_ws (c' :: s)
    else c :: collapse_ws (c' :: s).
Proof. reflexivity. Qed.

Lemma collapse_ws_run c s :
  is_space c = true ->
  collapse_ws (c :: s) = SPACE :: collapse_ws (drop_while is_space s).
Proof.
  revert c. induction s as [|c' s IH]; intros c Hc.
  - simpl. now rewrite Hc.
  - rewrite collapse_ws_cons2, Hc. cbn [drop_while].
    destruct (is_space c') eqn:Ec'.
    + now apply IH.
    + reflexivity.
Qed.

Lemma match_len_many_last p s :
  match_len [Many p] s = Some (List.length (take_while p s)).
Proof.
  induction s as [|c s IH]; [reflexivity|].
  rewrite match_len_many_cons, IH. cbn [take_while].
  now destruct (p c).
Qed.

Lemma match_len_spaces c s :
  is_space c = true ->
  match_len spaces_re (c :: s)
  = Some (S (List.length (take_while is_space s))).
Proof.
  intros Hc. unfold spaces_re. rewrite match_len_one_cons, Hc.
  now rewrite match_len_many_last.
Qed.

(** The last [re.sub] collapses each run of whitespace to one space. *)
Lemma sub_spaces s : sub spaces_re [SPACE] s = collapse_ws s.
Proof.
  induction s as [s IH] using list_length_ind.
  destruct s as [|c s]; [reflexivity|].
  destruct (is_space c) eqn:Ec.
  - rewrite (sub_cons_match _ _ _ _ _ (match_len_spaces c s Ec)).
    rewrite <- drop_while_skipn, (collapse_ws_run c s Ec).
    cbn [app]. f_equal. apply IH.
    pose proof (drop_while_length is_space s). simpl. lia.
  - rewrite sub_cons_nomatch.
    + cbn [collapse_ws]. rewrite Ec. f_equal. apply IH. simpl. lia.
    + unfold spaces_re. now rewrite match_len_one_cons, Ec.
Qed.

(** [clean_text], step by step, in terms of what each step does. *)
Lemma clean_text_steps text :
  clean_text text
  = strip (collapse_ws (dashes_to_commas
             (filter (fun c => negb (is_markdown c))
                (sub reply_tag_re [] text)))).
Proof.
  unfold clean_text.
  change (lit " ") with [SPACE].
  rewrite sub_spaces, sub_markdown, replace_dashes, replace_map.
  now rewrite dashes_newlines, collapse_ws_newlines.
Qed.

End CleanText.

Section Whitespace.

Lemma collapse_ws_starts_clean s :
  starts_clean s -> starts_clean (collapse_ws s).
Proof.
  destruct s as [|c s]; [trivial|].
  cbn [starts_clean collapse_ws]. intros Hc. now rewrite Hc.
Qed.

Lemma collapse_ws_single_spaced s : single_spaced (collapse_ws s).
Proof.
  induction s as [s IH] using list_length_ind.
  destruct s as [|c s]; [exact I|].
  destruct (is_space c) eqn:Ec.
  - rewrite (collapse_ws_run c s Ec). cbn [single_spaced]. repeat split.
    + apply collapse_ws_starts_clean. apply (drop_while_head is_space s).
    + apply IH. pose proof (drop_while_length is_space s). simpl. lia.
  - cbn [collapse_ws]. rewrite Ec. cbn [single_spaced]. split.
    + intros H. simpl in H. congruence.
    + apply IH. simpl. lia.
Qed.

Lemma single_spaced_suffix a b : single_spaced (a ++ b) -> single_spaced b.
Proof.
  induction a as [|c a IH]; [trivial|]. cbn [app single_spaced]. tauto.
Qed.

Lemma single_spaced_prefix a b : single_spaced (a ++ b) -> single_spaced a.
Proof.
  induction a as [|c a IH]; [intros _; exact I|].
  cbn [app single_spaced]. intros [Hc Hrest]. split; [|now apply IH].
  intros Hsp. destruct (Hc Hsp) as [-> Hstart]. split; [reflexivity|].
  destruct a; [exact I | exact Hstart].
Qed.

(** [strip] takes a piece out of the middle. *)
Lemma strip_middle s : exists before after, s = before ++ strip s ++ after.
Proof.
  unfold strip, rstrip, lstrip.
  exists (take_while is_space s),
         (rev (take_while is_space (rev (drop_while is_space s)))).
  rewrite <- rev_app_distr, take_drop_while, rev_involutive.
  symmetry. apply take_drop_while.
Qed.

Lemma single_spaced_strip s : single_spaced s -> single_spaced (strip s).
Proof.
  intros H. destruct (strip_middle s) as (before & after & E).
  rewrite E in H. apply single_spaced_suffix in H.
  now apply single_spaced_prefix in H.
Qed.

Lemma single_spaced_space s c :
  single_spaced s -> In c s -> is_space c = true -> c = SPACE.
Proof.
  induction s as [|a s IH]; [intros _ []|].
  cbn [single_spaced]. intros [Ha Hs] [<-|Hin] Hc.
  - now apply Ha.
  - now apply IH.
Qed.

Lemma single_spaced_no_double s :
  single_spaced s -> ~ occurs [SPACE; SPACE] s.
Proof.
  intros H (before & after & E). rewrite E in H.
  apply single_spaced_suffix in H. cbn [app single_spaced] in H.
  destruct H as [H _]. destruct (H eq_refl) as [_ Hstart].
  simpl in Hstart. discriminate Hstart.
Qed.

Lemma collapse_ws_id s : single_spaced s -> collapse_ws s = s.
Proof.
  induction s as [|c s IH]; [reflexivity|].
  cbn [single_spaced]. intros [Hc Hs].
  cbn [collapse_ws]. destruct (is_space c) eqn:Ec.
  - destruct (Hc eq_refl) as [-> Hstart].
    destruct s as [|c' s]; [reflexivity|].
    simpl in Hstart. rewrite Hstart. now rewrite IH.
  - now rewrite IH.
Qed.

Lemma collapse_ws_In s c : In c (collapse_ws s) -> In c s \/ c = SPACE.
Proof.
  induction s as [|a s IH]; [intros []|].
  cbn [collapse_ws]. destruct (is_space a).
  - destruct s as [|a' s].
    + intros [<-|[]]. now right.
    + destruct (is_space a').
      * intros H. destruct (IH H) as [H'|H']; [left; now right | now right].
      * intros [<-|H]; [now right|].
        destruct (IH H) as [H'|H']; [left; now right | now right].
  - intros [<-|H]; [left; now left|].
    destruct (IH H) as [H'|H']; [left; now right | now right].
Qed.

Lemma dashes_to_commas_In s c :
  In c (dashes_to_commas s) ->
  (In c s /\ c <> EM_DASH /\ c <> EN_DASH) \/ c = 44 \/ c = SPACE.
Proof.
  unfold dashes_to_commas. intros H. apply in_flat_map in H.
  destruct H as (a & Ha & Hc).
  destruct ((a =? EM_DASH) || (a =? EN_DASH)) eqn:E.
  - right. destruct Hc as [<-|[<-|[]]]; [now left | now right].
  - left. destruct Hc as [<-|[]]. split; [assumption|].
    unfold EM_DASH, EN_DASH in *. lia.
Qed.

End Whitespace.

Section CleanTextFacts.

Lemma clean_text_single_spaced text : single_spaced (clean_text text).
Proof.
  rewrite clean_text_steps.
  apply single_spaced_strip, collapse_ws_single_spaced.
Qed.

Lemma clean_text_starts_clean text : starts_clean (clean_text text).
Proof. rewrite clean_text_steps. apply strip_starts_clean. Qed.

Lemma clean_text_ends_clean text : ends_clean (clean_text text).
Proof. rewrite clean_text_steps. apply strip_ends_clean. Qed.

(** The characters that cannot be in a cleaned text. *)
Lemma clean_text_chars text c :
  In c (clean_text text) ->
  is_markdown c = false /\ c <> EM_DASH /\ c <> EN_DASH /\ c <> NEWLINE.
Proof.
  intros Hin.
  assert (Hnl : c <> NEWLINE).
  { intros ->.
    pose proof (single_spaced_space _ _ (clean_text_single_spaced text) Hin
                  eq_refl) as H.
    discriminate H. }
  rewrite clean_text_steps in Hin.
  apply strip_In, collapse_ws_In in Hin. destruct Hin as [Hin | ->].
  - apply dashes_to_commas_In in Hin.
    destruct Hin as [(Hin & Hem & Hen) | [-> | ->]].
    + apply filter_In in Hin. destruct Hin as [_ Hmd].
      apply negb_true_iff in Hmd. now repeat split.
    + repeat split; discriminate.
    + repeat split; discriminate.
  - repeat split; discriminate.
Qed.

Lemma clean_text_no_tag text t :
  is_reply_tag t -> ~ occurs t (clean_text text).
Proof.
  intros Htag (before & after & E).
  apply reply_tag_underscore in Htag.
  assert (Hin : In 95 (clean_text text)).
  { rewrite E. apply in_or_app. right. apply in_or_app. now left. }
  apply clean_text_chars in Hin. destruct Hin as [Hmd _]. discriminate Hmd.
Qed.

End CleanTextFacts.

(** C5, as the specification states it, fails for the opening angle
    bracket: the class of the source has the closing one only, and in
    "a <b> c" the opening bracket stays. *)
Lemma clean_text_contract_counterexample :
  ~ (forall c, In c (clean_text (lit "a <b> c")) ->
               c <> chr "<" /\ c <> chr ">").
Proof.
  intros H. destruct (H (chr "<")) as [Hlt _].
  - vm_compute. tauto.
  - now apply Hlt.
Qed.

(** C5, amended: of the two angle brackets it is the closing one that is
    removed.
    [clean_text] is defined on every string and its result is: the
    text without its reply-to tags (in any case of letters), then without
    the marks backtick, asterisk, underscore, hash, closing angle bracket
    and tilde, then with each em-dash and en-dash turned into a comma and a
    space, then with every run of whitespace (newlines too) collapsed to one
    space, then trimmed. In the result every whitespace character is a
    single space between two other characters: there are no two spaces in
    a row and no whitespace at the start or at the end; none of the marks,
    no dash, no newline and no reply-to tag is left. *)
Theorem clean_text_contract (text : pystr) :
  (exists t,
      tags_removed text t
      /\ clean_text text
         = strip (collapse_ws (dashes_to_commas
                     (filter (fun c => negb (is_markdown c)) t))))
  /\ single_spaced (clean_text text)
  /\ ~ occurs [SPACE; SPACE] (clean_text text)
  /\ starts_clean (clean_text text)
  /\ ends_clean (clean_text text)
  /\ (forall c, In c (clean_text text) ->
                is_markdown c = false
                /\ c <> EM_DASH /\ c <> EN_DASH /\ c <> NEWLINE)
  /\ (forall t, is_reply_tag t -> ~ occurs t (clean_text text)).
Proof.
  split; [|split; [|split; [|split; [|split; [|split]]]]].
  - exists (Re.sub reply_tag_re [] text). split.
    + apply sub_reply_tags.
    + apply clean_text_steps.
  - apply clean_text_single_spaced.
  - apply single_spaced_no_double, clean_text_single_spaced.
  - apply clean_text_starts_clean.
  - apply clean_text_ends_clean.
  - apply clean_text_chars.
  - apply clean_text_no_tag.
Qed.

(** C6. [clean_text] is idempotent. *)
Theorem clean_text_idempotent (x : pystr) :
  clean_text (clean_text x) = clean_text x.
Proof.
  set (o := clean_text x).
  assert (Hchars : forall c, In c o ->
             is_markdown c = false
             /\ c <> EM_DASH /\ c <> EN_DASH /\ c <> NEWLINE)
    by apply clean_text_chars.
  rewrite (clean_text_steps o).
  assert (Htags : Re.sub reply_tag_re [] o = o).
  { apply sub_no_match. intros a b Eo.
    destruct (Re.match_len reply_tag_re b) as [n|] eqn:E; [|reflexivity].
    apply match_len_sound in E. destruct E as (t & rest & -> & Hm & _).
    apply matches_reply_tag, reply_tag_underscore in Hm.
    assert (Hin : In 95 o).
    { rewrite Eo. apply in_or_app. right. apply in_or_app. now left. }
    apply Hchars in Hin. destruct Hin as [Hmd _]. discriminate Hmd. }
  rewrite Htags.
  rewrite filter_id.
  2:{ apply Forall_forall. intros c Hc. apply Hchars in Hc.
      destruct Hc as [-> _]. reflexivity. }
  assert (Hdash : dashes_to_commas o = o).
  { assert (Hem : replace EM_DASH (lit ", ") o = o).
    { apply replace_absent. intros Hin. apply Hchars in Hin. tauto. }
    rewrite <- replace_dashes, Hem.
    apply replace_absent. intros Hin. apply Hchars in Hin. tauto. }
  rewrite Hdash, collapse_ws_id by apply clean_text_single_spaced.
  apply strip_id.
  - apply clean_text_starts_clean.
  - apply clean_text_ends_clean.
Qed.

(** On a tagged line with marks, a dash and a newline. *)
Lemma clean_text_contract_witness :
  is_markdown 72 = false /\ 72 <> EM_DASH /\ 72 <> EN_DASH /\ 72 <> NEWLINE.
Proof.
  refine (proj1 (proj2 (proj2 (proj2 (proj2 (proj2
            (clean_text_contract
               (lit "[[ Reply_To: 42 ]] **Hi**  there" ++ [NEWLINE; EM_DASH]
                ++ lit "ok ")))))))
            72 _).
  vm_compute. tauto.
Defined.

(* ================================================================== *)
(** ** More on the selection of the reply *)
(* ================================================================== *)

Section SelectionMore.

Lemma py_get_raises v key e :
  py_get v key = Raise e -> interrupting e = false.
Proof. destruct v; simpl; intros H; inversion H; reflexivity. Qed.

Lemma py_strip_raises v e :
  py_strip v = Raise e -> interrupting e = false.
Proof. destruct v; simpl; intros H; inversion H; reflexivity. Qed.

Lemma py_iter_raises v e :
  py_iter v = Raise e -> interrupting e = false.
Proof. destruct v; simpl; intros H; inversion H; reflexivity. Qed.

Lemma payload_text_raises p e :
  payload_text p = Raise e -> interrupting e = false.
Proof.
  unfold payload_text. destruct (py_get p "text") as [t|e'] eqn:E; cbn [rbind].
  - apply py_strip_raises.
  - intros [= <-]. eapply py_get_raises; eassumption.
Qed.

Lemma payload_text_trimmed p s :
  payload_text p = Ok s -> exists x, s = strip x.
Proof.
  unfold payload_text. destruct (py_get p "text") as [t|e'] eqn:E; cbn [rbind];
    [|discriminate].
  destruct (py_or t (PStr [])) as [| | | |x| |]; simpl; try discriminate.
  intros [= <-]. now exists x.
Qed.

Lemma next_text_raises payloads e :
  next_text payloads = Raise e -> interrupting e = false.
Proof.
  induction payloads as [|p ps IH]; [discriminate|].
  cbn [next_text]. destruct (payload_text p) as [s|e'] eqn:E; cbn [rbind].
  - destruct s; [exact IH | intros H; discriminate H].
  - intros [= <-]. eapply payload_text_raises; eassumption.
Qed.

Lemma next_text_trimmed payloads s :
  next_text payloads = Ok s -> exists x, s = strip x.
Proof.
  induction payloads as [|p ps IH].
  - intros [= <-]. now exists [].
  - cbn [next_text]. destruct (payload_text p) as [t|e'] eqn:E; cbn [rbind];
      [|discriminate].
    destruct t as [|c t]; [exact IH|].
    intros [= <-]. eapply payload_text_trimmed; eassumption.
Qed.

Lemma select_reply_raises data e :
  select_reply data = Raise e -> interrupting e = false.
Proof.
  unfold select_reply.
  destruct (py_get data "result") as [r|e1] eqn:E1; cbn [rbind];
    [|intros [= <-]; eapply py_get_raises; eassumption].
  destruct (py_get (py_or r (PDict [])) "payloads") as [pl|e2] eqn:E2;
    cbn [rbind]; [|intros [= <-]; eapply py_get_raises; eassumption].
  destruct (py_iter (py_or pl (PList []))) as [items|e3] eqn:E3;
    cbn [rbind]; [|intros [= <-]; eapply py_iter_raises; eassumption].
  destruct (next_text items) as [reply|e4] eqn:E4;
    cbn [rbind]; [discriminate|].
  intros [= <-]. eapply next_text_raises; eassumption.
Qed.

Lemma shaped_blank_text p :
  payload_shaped p -> strip (text_field p) = [] -> payload_text p = Ok [].
Proof. intros Hp Hb. now rewrite (payload_text_shaped _ Hp), Hb. Qed.

End SelectionMore.

(** X1. Whatever the answer, a selected reply is never empty and has no
    whitespace at its start or at its end. *)
Theorem select_reply_nonempty_trimmed data reply :
  select_reply data = Ok reply ->
  reply <> [] /\ starts_clean reply /\ ends_clean reply.
Proof.
  unfold select_reply.
  destruct (py_get data "result") as [r|e1]; cbn [rbind]; [|discriminate].
  destruct (py_get (py_or r (PDict [])) "payloads") as [pl|e2];
    cbn [rbind]; [|discriminate].
  destruct (py_iter (py_or pl (PList []))) as [items|e3];
    cbn [rbind]; [|discriminate].
  destruct (next_text items) as [s|e4] eqn:E; cbn [rbind]; [|discriminate].
  intros [= <-]. destruct s as [|c s].
  - split; [discriminate | split; vm_compute; reflexivity].
  - destruct (next_text_trimmed _ _ E) as [x Hx]. rewrite Hx.
    split; [|split].
    + rewrite <- Hx. discriminate.
    + apply strip_starts_clean.
    + apply strip_ends_clean.
Qed.

Lemma select_reply_nonempty_trimmed_witness :
  lit "Lights are on." <> []
  /\ starts_clean (lit "Lights are on.") /\ ends_clean (lit "Lights are on.").
Proof.
  exact (select_reply_nonempty_trimmed
           (answer_with [payload (lit "  Lights are on. ")])
           (lit "Lights are on.") eq_refl).
Defined.

(** X2. The payloads after the first one with a text are not looked at:
    after payloads of the expected shape without text and one with a text,
    the reply is that text, trimmed, whatever follows in the list. *)
Theorem select_reply_first_text before p after :
  Forall payload_shaped before ->
  Forall (fun q => strip (text_field q) = []) before ->
  payload_shaped p -> strip (text_field p) <> [] ->
  select_reply (answer_with (before ++ p :: after))
  = Ok (strip (text_field p)).
Proof.
  intros Hshape Hblank Hp Htext.
  assert (Hnext : next_text (before ++ p :: after) = Ok (strip (text_field p))).
  { induction before as [|q qs IH].
    - cbn [app next_text]. rewrite (payload_text_shaped _ Hp). cbn [rbind].
      destruct (strip (text_field p)); [contradiction | reflexivity].
    - inversion Hshape; inversion Hblank; subst.
      cbn [app next_text]. rewrite shaped_blank_text by assumption.
      cbn [rbind]. now apply IH. }
  unfold select_reply, answer_with.
  change (py_get (PDict [(lit "result",
                          PDict [(lit "payloads", PList (before ++ p :: after))])])
            "result")
    with (Ok (PDict [(lit "payloads", PList (before ++ p :: after))])).
  cbn [rbind py_or truthy].
  change (py_get (PDict [(lit "payloads", PList (before ++ p :: after))])
            "payloads")
    with (Ok (PList (before ++ p :: after))).
  cbn [rbind].
  assert (Hor : py_or (PList (before ++ p :: after)) (PList [])
                = PList (before ++ p :: after)).
  { unfold py_or. cbn [truthy]. now destruct before. }
  rewrite Hor. cbn [py_iter rbind]. rewrite Hnext. cbn [rbind].
  destruct (strip (text_field p)); [contradiction | reflexivity].
Qed.

Lemma select_reply_first_text_witness :
  select_reply (answer_with ([PDict []] ++ payload (lit " hello ") :: [PInt 3]))
  = Ok (strip (text_field (payload (lit " hello ")))).
Proof.
  apply select_reply_first_text.
  - repeat constructor. exists []. split; [reflexivity | now left].
  - repeat constructor.
  - exists [(lit "text", PStr (lit " hello "))].
    split; [reflexivity|]. right. eexists. split; [reflexivity|].
    right. now eexists.
  - vm_compute. discriminate.
Defined.

(* ================================================================== *)
(** ** The ways through a turn *)
(* ================================================================== *)

Section Paths.

Variable py : pylib.
Variable w : world.

#[local] Arguments lit : simpl never.
#[local] Arguments clean_text : simpl never.
#[local] Arguments segments_text : simpl never.
#[local] Arguments normalize_reply : simpl never.

Lemma play_audio_windows_path path :
  play_path w path (fst (play_audio_windows w path))
    (snd (play_audio_windows w path)).
Proof.
  unfold play_audio_windows, call, bind, ret.
  destruct (w_where w) as [ff|e] eqn:Ew.
  - destruct (returncode ff =? 0) eqn:Erc.
    + apply Z.eqb_eq in Erc.
      pose proof (@play_ffplay w path ff Ew Erc) as H.
      destruct (w_player w); exact H.
    + apply Z.eqb_neq in Erc.
      pose proof (@play_powershell w path ff Ew Erc) as H.
      destruct (w_player w); exact H.
  - now apply play_no_where.
Qed.

Lemma speak_path_of reply :
  speak_path w reply (fst (speak w reply)) (snd (speak w reply)).
Proof.
  rewrite speak_events. destruct (w_tts w) as [c|e] eqn:Et; cbn [fst snd].
  - exact (@speak_play w reply c _ _ Et
             (play_audio_windows_path (lit "reply.mp3"))).
  - now apply speak_no_tts.
Qed.

Lemma respond_interrupted_events proc e :
  returncode proc = 0 -> stdout proc <> [] ->
  json_loads py (stdout proc) = Raise e -> is_Exception e = false ->
  respond py w proc = ([], Raise e).
Proof.
  intros Hrc Hout Hj He. unfold respond. rewrite Hrc.
  destruct (stdout proc) as [|c out] eqn:E; [congruence|].
  cbn [negb Z.eqb nonempty]. unfold lift. rewrite Hj.
  unfold bind at 2. unfold try_except. rewrite He. reflexivity.
Qed.

Lemma respond_unselected_events proc data e :
  returncode proc = 0 -> stdout proc <> [] ->
  json_loads py (stdout proc) = Ok data -> select_reply data = Raise e ->
  respond py w proc = ([], Raise e).
Proof.
  intros Hrc Hout Hj Hs. unfold respond. rewrite Hrc.
  destruct (stdout proc) as [|c out] eqn:E; [congruence|].
  cbn [negb Z.eqb nonempty]. unfold lift. rewrite Hj. simpl.
  rewrite Hs. reflexivity.
Qed.

Lemma respond_path_of proc :
  respond_path py w proc (fst (respond py w proc)) (snd (respond py w proc)).
Proof.
  destruct (Z.eq_dec (returncode proc) 0) as [Hrc|Hrc].
  2:{ rewrite (respond_exit_status py w proc Hrc). now constructor. }
  destruct (list_eq_dec Z.eq_dec (stdout proc) []) as [Hout|Hne].
  { rewrite (respond_no_stdout py w proc Hrc Hout). now constructor. }
  destruct (json_loads py (stdout proc)) as [data|e] eqn:Hj.
  - destruct (select_reply data) as [reply|e] eqn:Hs.
    + rewrite (respond_reply py w proc data reply Hrc Hne Hj Hs).
      exact (@respond_spoken py w proc data reply _ _ Hrc Hne Hj Hs
               (speak_path_of reply)).
    + rewrite (respond_unselected_events proc data e Hrc Hne Hj Hs).
      exact (@respond_unselected py w proc data e Hrc Hne Hj Hs).
  - destruct (is_Exception e) eqn:He.
    + rewrite (respond_malformed py w proc e Hrc Hne Hj He).
      exact (@respond_unparsed py w proc e Hrc Hne Hj He).
    + rewrite (respond_interrupted_events proc e Hrc Hne Hj He).
      exact (@respond_interrupted py w proc e Hrc Hne Hj He).
Qed.

Lemma converse_path_of text :
  hears w text ->
  turn_path py w (listen_events ++ fst (converse py w text))
    (snd (converse py w text)).
Proof.
  intros Hh. destruct (quality_gate py text) as [line|] eqn:Hg.
  - rewrite (converse_rejected py w text line Hg).
    exact (@turn_rejected py w text line Hh Hg).
  - destruct (w_wsl w) as [proc|e] eqn:Hw.
    + rewrite (converse_asks py w text proc Hg Hw). cbn [fst snd].
      exact (@turn_answered py w text proc _ _ (conj Hh (conj Hg Hw))
               (respond_path_of proc)).
    + assert (E : converse py w text = (ask_events py w text, Raise e)).
      { unfold converse, ask_events, ask_mina_via_wsl, run_wsl_bash, call,
          print, emit. rewrite Hg, Hw. reflexivity. }
      rewrite E. exact (@turn_no_bridge py w text e Hh Hg Hw).
Qed.

(** The body of a turn goes one of the ways of [turn_path]. *)
Lemma turn_body_path :
  turn_path py w (fst (turn_body py w)) (snd (turn_body py w)).
Proof.
  destruct (w_input w) as [[]|e] eqn:Hi.
  2:{ assert (E : turn_body py w = (firstn 1 listen_events, Raise e)).
      { unfold turn_body, call. rewrite Hi. reflexivity. }
      rewrite E. now apply turn_no_cue. }
  destruct (w_capture w) as [[]|e] eqn:Hc.
  2:{ assert (E : turn_body py w = (firstn 3 listen_events, Raise e)).
      { unfold turn_body, call, print, emit. rewrite Hi, Hc. reflexivity. }
      rewrite E. now apply turn_no_capture. }
  destruct (w_segments w) as [segments|e] eqn:Hs.
  2:{ assert (E : turn_body py w = (listen_events, Raise e)).
      { unfold turn_body, transcribe_audio, call, print, emit.
        rewrite Hi, Hc, Hs. reflexivity. }
      rewrite E. now apply turn_no_transcript. }
  assert (Hh : hears w (clean_text (segments_text segments))).
  { split; [exact Hi|]. split; [exact Hc|]. now exists segments. }
  rewrite (turn_body_hears py w _ Hh). cbn [fst snd].
  now apply converse_path_of.
Qed.

Lemma turn_handlers :
  turn py w
  = (fst (turn_body py w) ++ fst (handlers (snd (turn_body py w))),
     snd (handlers (snd (turn_body py w)))).
Proof.
  unfold turn. destruct (turn_body py w) as [t r]. cbn [fst snd].
  now destruct (handlers r).
Qed.

End Paths.

(* ================================================================== *)
(** ** What every turn does *)
(* ================================================================== *)

Section EveryTurn.

Variable py : pylib.
Variable w : world.

Lemma stages_app t1 t2 : stages (t1 ++ t2) = stages t1 ++ stages t2.
Proof. apply flat_map_app. Qed.

Lemma stages_handlers r : stages (fst (handlers r)) = [].
Proof. now destruct r as [c|[| |name msg]]. Qed.

Lemma stages_ask text : stages (ask_events py w text) = [AtBridge].
Proof. reflexivity. Qed.

Lemma stages_play path t r :
  play_path w path t r ->
  exists n, stages t = firstn n [AtWhere; AtPlayer].
Proof.
  destruct 1.
  - now exists 1%nat.
  - now exists 2%nat.
  - now exists 2%nat.
Qed.

Lemma stages_speak reply t r :
  speak_path w reply t r ->
  exists n, stages t = firstn n [AtSynthesis; AtWhere; AtPlayer].
Proof.
  destruct 1 as [e He|c t r Hc Hp].
  - now exists 1%nat.
  - destruct (stages_play _ _ _ Hp) as [n Hn].
    exists (S n). rewrite stages_app, Hn. reflexivity.
Qed.

Lemma stages_respond proc t r :
  respond_path py w proc t r ->
  exists n, stages t = firstn n [AtSynthesis; AtWhere; AtPlayer].
Proof.
  destruct 1; try (now exists 0%nat).
  eapply stages_speak; eassumption.
Qed.

Lemma stages_turn_path t r :
  turn_path py w t r ->
  exists n, (1 <= n)%nat /\ stages t = firstn n pipeline.
Proof.
  destruct 1 as [e|e|e|text line|text e|text proc t r Ha Hr].
  - exists 1%nat. split; [lia | reflexivity].
  - exists 2%nat. split; [lia | reflexivity].
  - exists 3%nat. split; [lia | reflexivity].
  - exists 3%nat. split; [lia | reflexivity].
  - exists 4%nat. split; [lia|]. now rewrite stages_app, stages_ask.
  - destruct (stages_respond _ _ _ Hr) as [n Hn].
    exists (4 + n)%nat. split; [lia|].
    now rewrite !stages_app, stages_ask, Hn.
Qed.

Lemma synthesized_play_path path t r :
  play_path w path t r -> synthesized t = [].
Proof. now destruct 1. Qed.

Lemma synthesized_respond_path proc t r :
  respond_path py w proc t r ->
  synthesized t = []
  \/ exists reply, synthesized t = [firstn 500 (normalize_reply reply)].
Proof.
  destruct 1 as [| | | | |data reply t r Hrc Hout Hj Hs Hsp];
    try (now left).
  right. exists reply. destruct Hsp as [e He|c t r Hc Hp].
  - reflexivity.
  - rewrite synthesized_app, (synthesized_play_path _ _ _ Hp). reflexivity.
Qed.

Lemma synthesized_turn_path t r :
  turn_path py w t r ->
  synthesized t = []
  \/ exists reply, synthesized t = [firstn 500 (normalize_reply reply)].
Proof.
  destruct 1 as [e|e|e|text line|text e|text proc t r Ha Hr];
    try (now left).
  rewrite !synthesized_app, synthesized_ask.
  exact (synthesized_respond_path _ _ _ Hr).
Qed.

Lemma result_play_path path t r :
  play_path w path t r ->
  uninterrupted (w_where w) -> uninterrupted (w_player w) ->
  uninterrupted r.
Proof.
  destruct 1 as [e He|ff Hf Hrc|ff Hf Hrc]; intros Hw Hp.
  - now rewrite He in Hw.
  - now destruct (w_player w).
  - now destruct (w_player w).
Qed.

Lemma result_turn_path t r :
  turn_path py w t r ->
  uninterrupted (w_input w) -> uninterrupted (w_capture w) ->
  uninterrupted (w_segments w) -> uninterrupted (w_wsl w) ->
  uninterrupted (w_tts w) -> uninterrupted (w_where w) ->
  uninterrupted (w_player w) ->
  (forall s, json_loads py s <> Raise KeyboardInterrupt) ->
  match r with
  | Ok c => c = Continue
  | Raise e => interrupting e = false
  end.
Proof.
  intros Hpath Hi Hc Hs Hw Ht Hwh Hp Hj.
  destruct Hpath as [e He|e _ He|e _ _ He|text line|text e _ _ He
                    |text proc t r Ha Hr].
  - now rewrite He in Hi.
  - now rewrite He in Hc.
  - now rewrite He in Hs.
  - reflexivity.
  - now rewrite He in Hw.
  - destruct Hr as [| | |e _ _ Hje He|data e _ _ _ Hse
                   |data reply t r _ _ _ _ Hsp]; try reflexivity.
    + destruct e; try discriminate He. now apply Hj in Hje.
    + now apply select_reply_raises in Hse.
    + destruct Hsp as [e He|c t r _ Hpl].
      * now rewrite He in Ht.
      * pose proof (result_play_path _ _ _ Hpl Hwh Hp) as Hr.
        now destruct r.
Qed.

End EveryTurn.

(** X3. In every turn the calls to the outside follow the pipeline: they
    are, in order, the first ones of cue, capture, transcription, bridge,
    synthesis, [where ffplay], player. So no call is made twice in a turn,
    none is made before the ones ahead of it, and a turn always starts with
    the cue. *)
Theorem turn_follows_pipeline py w :
  exists n, (1 <= n)%nat /\ stages (fst (turn py w)) = firstn n pipeline.
Proof.
  destruct (stages_turn_path py w _ _ (turn_body_path py w)) as (n & Hn & E).
  exists n. split; [exact Hn|].
  rewrite turn_handlers. cbn [fst].
  now rewrite stages_app, stages_handlers, app_nil_r.
Qed.

(** X4. An error never ends the loop: when no call of the turn raises
    [EOFError] or [KeyboardInterrupt] (and [json.loads] is not interrupted),
    the iteration ends in [continue], whatever else fails. *)
Theorem errors_never_end_the_loop py w :
  uninterrupted (w_input w) -> uninterrupted (w_capture w) ->
  uninterrupted (w_segments w) -> uninterrupted (w_wsl w) ->
  uninterrupted (w_tts w) -> uninterrupted (w_where w) ->
  uninterrupted (w_player w) ->
  (forall s, json_loads py s <> Raise KeyboardInterrupt) ->
  snd (turn py w) = Continue.
Proof.
  intros Hi Hc Hs Hw Ht Hwh Hp Hj.
  pose proof (result_turn_path py w _ _ (turn_body_path py w)
                Hi Hc Hs Hw Ht Hwh Hp Hj) as H.
  rewrite turn_handlers. cbn [snd].
  destruct (snd (turn_body py w)) as [c|[| |name msg]];
    try discriminate H; [now subst | reflexivity].
Qed.

(** A turn in which the capture, the bridge and edge-tts all fail. *)
Lemma errors_never_end_the_loop_witness :
  snd (turn (demo_lib [])
         {| w_input := Ok tt;
            w_capture := Raise (Error (lit "PortAudioError") (lit "no device"));
            w_segments := Ok [];
            w_wsl := Raise (Error (lit "FileNotFoundError") (lit "wsl.exe"));
            w_tts := Raise (Error (lit "FileNotFoundError") (lit "edge-tts"));
            w_where := Ok (exited 1);
            w_player := Ok (exited 1) |})
  = Continue.
Proof.
  apply errors_never_end_the_loop; try exact I; try reflexivity.
  intros s. simpl. destruct (pystr_eqb s (demo_json [])); discriminate.
Defined.

(** X5. The text given to edge-tts, in any turn, has at most 500 characters
    and only ASCII characters, and a turn gives it at most one text. *)
Theorem spoken_text_bounded py w :
  (List.length (synthesized (fst (turn py w))) <= 1)%nat
  /\ forall s, In s (synthesized (fst (turn py w))) ->
               (List.length s <= 500)%nat /\ Forall (fun c => c < 128) s.
Proof.
  assert (H : synthesized (fst (turn py w)) = []
              \/ exists reply, synthesized (fst (turn py w))
                               = [firstn 500 (normalize_reply reply)]).
  { rewrite turn_handlers. cbn [fst].
    rewrite synthesized_app, synthesized_handlers, app_nil_r.
    exact (synthesized_turn_path py w _ _ (turn_body_path py w)). }
  destruct H as [-> | [reply ->]].
  - split; [simpl; lia | intros s []].
  - split; [simpl; lia|]. intros s [<-|[]]. split.
    + rewrite length_firstn. lia.
    + apply Forall_forall. intros c Hc.
      apply (In_nth _ _ 0) in Hc. destruct Hc as (i & _ & <-).
      rewrite nth_firstn. destruct (i <? 500)%nat; [|lia].
      destruct (Nat.lt_ge_cases i (List.length (normalize_reply reply)))
        as [Hlt|Hge].
      * pose proof (encode_ascii_ignore_ascii
                      (strip_emoji (clean_text reply))) as Hall.
        rewrite Forall_forall in Hall. apply Hall.
        now apply nth_In.
      * rewrite nth_overflow by exact Hge. lia.
Qed.

Section EveryTurnMore.

Variable py : pylib.
Variable w : world.






End EveryTurnMore.



(** X7. An answer from which no reply can be selected (an answer that is
    not an object, a text that is not a string) raises an error of class
    [Exception], never an interruption; the turn reports it on one line and
    ends there, with nothing synthesized or played, and the loop goes on. *)
Theorem malformed_answer_reported py w text proc data e :
  asks py w text proc ->
  returncode proc = 0 -> stdout proc <> [] ->
  json_loads py (stdout proc) = Ok data -> select_reply data = Raise e ->
  exists name msg,
    e = Error name msg
    /\ aborts_with py w text
         [Print [lit "Unexpected error: " ++ name ++ lit ": " ++ msg]]
    /\ existsb is_synthesis (fst (turn py w)) = false
    /\ existsb is_playback (fst (turn py w)) = false.
Proof.
  intros Ha Hrc Hout Hj Hs.
  pose proof (select_reply_raises _ _ Hs) as He.
  destruct e as [| |name msg]; try discriminate He.
  exists name, msg. split; [reflexivity|].
  assert (Hab : aborts_with py w text
                  (map Print [[lit "Unexpected error: " ++ name ++ lit ": " ++ msg]])).
  { unfold aborts_with.
    rewrite (turn_asks py w text proc Ha),
      (respond_unselected_events py w proc data _ Hrc Hout Hj Hs).
    reflexivity. }
  split; [exact Hab|].
  destruct (aborts_with_prints py w text _ Hab) as (_ & H1 & H2 & _).
  now split.
Qed.

(** The bridge prints a JSON array. *)
Lemma malformed_answer_reported_witness :
  exists name msg,
    Error (lit "AttributeError") (lit "'list' object has no attribute 'get'")
    = Error name msg
    /\ aborts_with (knowing (lit "[]") (PList []))
         (demo_world {| returncode := 0; stdout := lit "[]"; stderr := [] |} 0)
         (lit "Turn on the lights.")
         [Print [lit "Unexpected error: " ++ name ++ lit ": " ++ msg]]
    /\ existsb is_synthesis
         (fst (turn (knowing (lit "[]") (PList []))
                 (demo_world {| returncode := 0; stdout := lit "[]";
                                stderr := [] |} 0))) = false
    /\ existsb is_playback
         (fst (turn (knowing (lit "[]") (PList []))
                 (demo_world {| returncode := 0; stdout := lit "[]";
                                stderr := [] |} 0))) = false.
Proof.
  refine (malformed_answer_reported (knowing (lit "[]") (PList []))
            (demo_world {| returncode := 0; stdout := lit "[]"; stderr := [] |} 0)
            (lit "Turn on the lights.")
            {| returncode := 0; stdout := lit "[]"; stderr := [] |}
            (PList []) _ _ eq_refl _ eq_refl eq_refl).
  - repeat split; try reflexivity.
    exists [lit " Turn on"; lit " the lights."]. split; reflexivity.
  - discriminate.
Defined.

(** X8. The end of the input or Ctrl+C at the prompt ends the loop at once:
    the turn prints its farewell line and nothing else happens, neither in
    this turn nor later. *)
Theorem cue_ends_the_loop py w :
  (w_input w = Raise EOFError ->
   forall ws,
     loop py (w :: ws)
     = (firstn 1 listen_events
          ++ [Print [[NEWLINE] ++ lit "Input stream closed. Exiting."]],
        Shutdown))
  /\ (w_input w = Raise KeyboardInterrupt ->
      forall ws,
        loop py (w :: ws)
        = (firstn 1 listen_events ++ [Print [[NEWLINE] ++ lit "Bye."]],
           Shutdown)).
Proof.
  split; intros Hi ws; cbn [loop]; unfold turn, turn_body, call;
    rewrite Hi; reflexivity.
Qed.

Lemma cue_ends_the_loop_witness :
  loop (demo_lib [])
    [ {| w_input := Raise EOFError; w_capture := Ok tt; w_segments := Ok [];
         w_wsl := Ok (demo_answer []); w_tts := Ok (exited 0);
         w_where := Ok (exited 0); w_player := Ok (exited 0) |};
      demo_world (demo_answer []) 0 ]
  = (firstn 1 listen_events
       ++ [Print [[NEWLINE] ++ lit "Input stream closed. Exiting."]],
     Shutdown).
Proof.
  exact (proj1 (cue_ends_the_loop (demo_lib [])
                  {| w_input := Raise EOFError; w_capture := Ok tt;
                     w_segments := Ok []; w_wsl := Ok (demo_answer []);
                     w_tts := Ok (exited 0); w_where := Ok (exited 0);
                     w_player := Ok (exited 0) |})
           eq_refl [demo_world (demo_answer []) 0]).
Defined.

(* ================================================================== *)
(** ** Playback and the loop *)
(* ================================================================== *)

(** X9. [play_audio_windows] runs one player at most, chosen by the exit
    status of [where ffplay]: ffplay when it is 0, powershell's
    Start-Process otherwise, none when [where] could not be run. The exit
    status of the player is not looked at: the call ends well as soon as
    both runs return. *)
Theorem play_audio_windows_choice w path :
  (existsb is_ffplay (fst (play_audio_windows w path)) = true
   <-> exists ff, w_where w = Ok ff /\ returncode ff = 0)
  /\ (existsb is_powershell (fst (play_audio_windows w path)) = true
      <-> exists ff, w_where w = Ok ff /\ returncode ff <> 0)
  /\ (snd (play_audio_windows w path) = Ok tt
      <-> (exists ff, w_where w = Ok ff) /\ exists c, w_player w = Ok c).
Proof.
  destruct (play_audio_windows_path w path) as [e He|ff Hf Hrc|ff Hf Hrc];
    rewrite ?He, ?Hf.
  - split; [|split]; split; try discriminate.
    + intros (ff & H & _). discriminate H.
    + intros (ff & H & _). discriminate H.
    + intros [(ff & H) _]. discriminate H.
  - split; [|split]; split; try discriminate.
    + intros _. now exists ff.
    + reflexivity.
    + intros (ff' & [= <-] & H). contradiction.
    + intros H. split; [now exists ff|].
      destruct (w_player w) as [c|e]; [now exists c | discriminate H].
    + intros [_ (c & ->)]. reflexivity.
  - split; [|split]; split; try discriminate.
    + intros (ff' & [= <-] & H). contradiction.
    + intros _. now exists ff.
    + reflexivity.
    + intros H. split; [now exists ff|].
      destruct (w_player w) as [c|e]; [now exists c | discriminate H].
    + intros [_ (c & ->)]. reflexivity.
Qed.

Section Loop.

Variable py : pylib.

Lemma loop_cons w ws :
  loop py (w :: ws)
  = match snd (turn py w) with
    | Continue => (fst (turn py w) ++ fst (loop py ws), snd (loop py ws))
    | Break => (fst (turn py w), Shutdown)
    end.
Proof.
  cbn [loop]. destruct (turn py w) as [t [|]]; cbn [fst snd];
    [now destruct (loop py ws) | reflexivity].
Qed.

End Loop.

(** X10. The loop over the turns of [ws1] and then [ws2]: when a turn of
    [ws1] has ended in [break], nothing of [ws2] happens; otherwise the
    turns of [ws2] follow. The loop is left if and only if one of its turns
    ends in [break]. *)
Theorem loop_app py ws1 ws2 :
  loop py (ws1 ++ ws2)
  = match snd (loop py ws1) with
    | Shutdown => loop py ws1
    | AwaitUserCue =>
        (fst (loop py ws1) ++ fst (loop py ws2), snd (loop py ws2))
    end
  /\ (snd (loop py ws1) = Shutdown
      <-> Exists (fun w => snd (turn py w) = Break) ws1).
Proof.
  split.
  - induction ws1 as [|w ws IH].
    + simpl. now destruct (loop py ws2).
    + cbn [app]. rewrite !loop_cons.
      destruct (snd (turn py w)); cbn [fst snd]; [|reflexivity].
      rewrite IH. destruct (snd (loop py ws)) eqn:E; cbn [fst snd].
      * now rewrite app_assoc.
      * rewrite <- E. now destruct (loop py ws).
  - induction ws1 as [|w ws IH].
    + simpl. split; [discriminate | intros H; inversion H].
    + rewrite loop_cons. destruct (snd (turn py w)) eqn:E; cbn [snd].
      * rewrite IH. split; [now right|].
        intros H. inversion H as [x l Hx|x l Hl]; subst; [congruence | exact Hl].
      * split; [intros _; now left | reflexivity].
Qed.

(* ================================================================== *)
(** ** More on clean_text and the normalization of the reply *)
(* ================================================================== *)

Section CleanTextMore.

(** On a clean text every step of [clean_text] is the identity. *)
Lemma clean_text_on_clean s : clean s -> clean_text s = s.
Proof.
  intros (Hchars & Hsingle & Hstart & Hend).
  rewrite (clean_text_steps s).
  assert (Htags : Re.sub reply_tag_re [] s = s).
  { apply sub_no_match. intros a b Es.
    destruct (Re.match_len reply_tag_re b) as [n|] eqn:E; [|reflexivity].
    apply match_len_sound in E. destruct E as (t & rest & -> & Hm & _).
    apply matches_reply_tag, reply_tag_underscore in Hm.
    assert (Hin : In 95 s).
    { rewrite Es. apply in_or_app. right. apply in_or_app. now left. }
    apply Hchars in Hin. destruct Hin as [Hmd _]. discriminate Hmd. }
  rewrite Htags, filter_id.
  2:{ apply Forall_forall. intros c Hc. apply Hchars in Hc.
      destruct Hc as [-> _]. reflexivity. }
  assert (Hdash : dashes_to_commas s = s).
  { assert (Hem : replace EM_DASH (lit ", ") s = s).
    { apply replace_absent. intros Hin. apply Hchars in Hin. tauto. }
    rewrite <- replace_dashes, Hem.
    apply replace_absent. intros Hin. apply Hchars in Hin. tauto. }
  rewrite Hdash, collapse_ws_id by exact Hsingle.
  now apply strip_id.
Qed.

Lemma clean_clean_text x : clean (clean_text x).
Proof.
  split; [intros c; apply clean_text_chars|].
  split; [apply clean_text_single_spaced|].
  split; [apply clean_text_starts_clean | apply clean_text_ends_clean].
Qed.

Lemma sub_from_delete_In pat c :
  forall s k, In c (Re.sub_from pat [] k s) -> In c s.
Proof.
  induction s as [|a s IH]; intros k.
  - simpl. destruct k; [destruct (Re.match_len pat [])|]; intros [].
  - cbn [Re.sub_from]. destruct k as [|k].
    + destruct (Re.match_len pat (a :: s)) as [[|n]|]; cbn [app].
      * intros [<-|H]; [now left | right; eapply IH; eassumption].
      * intros H. right. eapply IH; eassumption.
      * intros [<-|H]; [now left | right; eapply IH; eassumption].
    + intros H. right. eapply IH; eassumption.
Qed.

Lemma sub_from_delete_length pat :
  forall s k, (List.length (Re.sub_from pat [] k s) <= List.length s)%nat.
Proof.
  induction s as [|a s IH]; intros k.
  - simpl. destruct k; [destruct (Re.match_len pat [])|]; simpl; lia.
  - cbn [Re.sub_from]. destruct k as [|k].
    + destruct (Re.match_len pat (a :: s)) as [[|n]|]; cbn [app List.length].
      * specialize (IH 0%nat). lia.
      * specialize (IH n). lia.
      * specialize (IH 0%nat). lia.
    + specialize (IH k). simpl. lia.
Qed.

Lemma collapse_ws_length s :
  (List.length (collapse_ws s) <= List.length s)%nat.
Proof.
  induction s as [|c s IH]; [simpl; lia|].
  cbn [collapse_ws]. destruct (is_space c).
  - destruct s as [|c' s]; [simpl; lia|].
    destruct (is_space c'); cbn [List.length] in *; lia.
  - cbn [List.length]. lia.
Qed.

Lemma strip_length s : (List.length (strip s) <= List.length s)%nat.
Proof.
  destruct (strip_middle s) as (before & after & E).
  rewrite E at 2. rewrite !length_app. lia.
Qed.

Lemma dashes_to_commas_length s :
  (List.length (dashes_to_commas s) <= 2 * List.length s)%nat.
Proof.
  unfold dashes_to_commas. induction s as [|c s IH]; [simpl; lia|].
  cbn [flat_map]. rewrite length_app. cbn [List.length].
  destruct ((c =? EM_DASH) || (c =? EN_DASH)); simpl; lia.
Qed.

Lemma clean_text_In s c :
  In c (clean_text s) -> In c s \/ c = SPACE \/ c = 44.
Proof.
  rewrite clean_text_steps. intros H.
  apply strip_In, collapse_ws_In in H. destruct H as [H | ->]; [|tauto].
  apply dashes_to_commas_In in H.
  destruct H as [(H & _) | [-> | ->]]; [|tauto|tauto].
  apply filter_In in H. destruct H as [H _].
  left. eapply sub_from_delete_In. exact H.
Qed.

End CleanTextMore.

(** X11. The texts that [clean_text] leaves as they are are exactly the
    clean ones: without the six marks, dashes and newlines, with single
    spaces only and no whitespace at either end. *)
Theorem clean_text_fixed_points (s : pystr) : clean_text s = s <-> clean s.
Proof.
  split.
  - intros <-. apply clean_clean_text.
  - apply clean_text_on_clean.
Qed.

(** X12. [clean_text] brings in no character but the space and the comma,
    and its result is at most twice as long as the text. *)
Theorem clean_text_provenance (s : pystr) :
  (forall c, In c (clean_text s) -> In c s \/ c = SPACE \/ c = 44)
  /\ (List.length (clean_text s) <= 2 * List.length s)%nat.
Proof.
  split; [intros c; apply clean_text_In|].
  rewrite clean_text_steps.
  pose proof (strip_length
                (collapse_ws (dashes_to_commas
                   (filter (fun c => negb (is_markdown c))
                      (Re.sub reply_tag_re [] s))))) as H1.
  pose proof (collapse_ws_length
                (dashes_to_commas
                   (filter (fun c => negb (is_markdown c))
                      (Re.sub reply_tag_re [] s)))) as H2.
  pose proof (dashes_to_commas_length
                (filter (fun c => negb (is_markdown c))
                   (Re.sub reply_tag_re [] s))) as H3.
  pose proof (filter_length_le (fun c => negb (is_markdown c))
                (Re.sub reply_tag_re [] s)) as H4.
  pose proof (sub_from_delete_length reply_tag_re s 0) as H5.
  unfold Re.sub in *. lia.
Qed.

Lemma clean_text_provenance_witness :
  In 44 [97; EM_DASH; 98] \/ 44 = SPACE \/ 44 = 44.
Proof.
  refine (proj1 (clean_text_provenance [97; EM_DASH; 98]) 44 _).
  vm_compute. tauto.
Defined.

(** X13. The replies that the normalization of [main] leaves as they are
    are exactly the clean texts made of ASCII characters. *)
Theorem normalize_reply_fixed_points (r : pystr) :
  normalize_reply r = r <-> clean r /\ Forall (fun c => c < 128) r.
Proof.
  unfold normalize_reply. rewrite ascii_after_strip_emoji. split.
  - intros H.
    assert (Hascii : Forall (fun c => c < 128) r).
    { rewrite <- H. apply Forall_forall. intros c Hc.
      apply filter_In in Hc. destruct Hc as [_ Hc]. unfold is_ascii in Hc. lia. }
    assert (Hclean : clean_text r = r).
    { rewrite <- H at 2. symmetry. apply filter_id.
      apply Forall_forall. intros c Hc. unfold is_ascii.
      apply clean_text_In in Hc. destruct Hc as [Hc|[->| ->]];
        [|reflexivity|reflexivity].
      rewrite Forall_forall in Hascii. specialize (Hascii c Hc). lia. }
    split; [|exact Hascii]. rewrite <- Hclean. apply clean_clean_text.
  - intros [Hclean Hascii]. rewrite (clean_text_on_clean _ Hclean).
    apply filter_id. eapply Forall_impl; [|exact Hascii].
    intros c Hc. unfold is_ascii. now apply Z.ltb_lt.
Qed.

(** X14. The fallback sentence guards against an empty selection only: a
    reply made of characters above 127 that are neither whitespace nor
    dashes (emoji, for instance) is selected as it is, the normalization
    drops all of it, and edge-tts is run on the empty text. *)
Theorem emoji_reply_spoken_empty py w text proc reply :
  gets_reply py w text proc reply ->
  Forall (fun c => 128 <= c /\ is_space c = false
                   /\ c <> EM_DASH /\ c <> EN_DASH) reply ->
  normalize_reply reply = []
  /\ synthesized (fst (turn py w)) = [[]]
  /\ (reply <> [] ->
      select_reply (answer_with [payload reply]) = Ok reply).
Proof.
  intros Hg Hall. rewrite Forall_forall in Hall.
  assert (Hstrip : strip reply = reply).
  { apply strip_id.
    - destruct reply as [|c r]; [exact I|]. apply (Hall c). now left.
    - unfold ends_clean. destruct (rev reply) as [|c r] eqn:E; [exact I|].
      apply (Hall c). apply in_rev. rewrite E. now left. }
  assert (Hclean : clean reply).
  { split; [|split; [|split]].
    - intros c Hc. destruct (Hall c Hc) as (H128 & Hsp & Hem & Hen).
      repeat split; try assumption.
      + unfold is_markdown. lia.
      + unfold NEWLINE. lia.
    - clear Hstrip Hg. induction reply as [|c r IH]; [exact I|].
      split.
      + intros Hc. destruct (Hall c (or_introl eq_refl)) as (_ & Hsp & _).
        congruence.
      + apply IH. intros x Hx. apply Hall. now right.
    - rewrite <- Hstrip. apply strip_starts_clean.
    - rewrite <- Hstrip. apply strip_ends_clean. }
  assert (Hnorm : normalize_reply reply = []).
  { unfold normalize_reply.
    rewrite ascii_after_strip_emoji, (clean_text_on_clean _ Hclean).
    clear Hstrip Hclean Hg. induction reply as [|c r IH]; [reflexivity|].
    cbn [filter]. destruct (Hall c (or_introl eq_refl)) as (H128 & _).
    unfold is_ascii at 1. destruct (c <? 128) eqn:E; [lia|].
    apply IH. intros x Hx. apply Hall. now right. }
  split; [exact Hnorm|]. split.
  - unfold turn. rewrite (turn_body_gets_reply _ _ _ _ _ Hg).
    pose proof (synthesized_handlers (snd (speak w reply))) as Hh.
    destruct (handlers (snd (speak w reply))) as [t' c]. cbn [fst] in *.
    rewrite !synthesized_app, synthesized_ask, synthesized_speak, Hh, Hnorm.
    reflexivity.
  - intros Hne. unfold select_reply, answer_with, payload.
    destruct reply as [|c r]; [contradiction|].
    change (py_get (PDict [(lit "result",
                            PDict [(lit "payloads",
                                    PList [PDict [(lit "text", PStr (c :: r))]])])])
              "result")
      with (Ok (PDict [(lit "payloads",
                        PList [PDict [(lit "text", PStr (c :: r))]])])).
    cbn [rbind py_or truthy].
    change (py_get (PDict [(lit "payloads",
                            PList [PDict [(lit "text", PStr (c :: r))]])])
              "payloads")
      with (Ok (PList [PDict [(lit "text", PStr (c :: r))]])).
    cbn [rbind py_or truthy py_iter next_text].
    change (payload_text (PDict [(lit "text", PStr (c :: r))]))
      with (Ok (strip (c :: r))).
    rewrite Hstrip. reflexivity.
Qed.

(** The agent answers with one grinning face, U+1F600. *)
Lemma emoji_reply_spoken_empty_witness :
  normalize_reply [0x1F600] = []
  /\ synthesized (fst (turn (demo_lib [0x1F600])
                         (demo_world (demo_answer [0x1F600]) 0))) = [[]]
  /\ ([0x1F600] <> [] ->
      select_reply (answer_with [payload [0x1F600]]) = Ok [0x1F600]).
Proof.
  refine (emoji_reply_spoken_empty (demo_lib [0x1F600])
            (demo_world (demo_answer [0x1F600]) 0)
            (lit "Turn on the lights.") (demo_answer [0x1F600]) [0x1F600] _ _).
  - repeat split; try reflexivity.
    + exists [lit " Turn on"; lit " the lights."]. split; reflexivity.
    + discriminate.
    + exists (demo_document [0x1F600]). split; reflexivity.
  - repeat constructor; discriminate.
Defined.

(* ================================================================== *)
(** ** Words *)
(* ================================================================== *)

Section Words.

Lemma split_from_spaces cur tail :
  Forall (fun c => is_space c = true) tail ->
  split_from cur tail = match cur with [] => [] | _ => [rev cur] end.
Proof.
  intros H. revert cur. induction H as [|c tail Hc _ IH]; intros cur.
  - reflexivity.
  - cbn [split_from]. rewrite Hc. destruct cur; now rewrite IH.
Qed.

Lemma split_from_trailing s tail :
  Forall (fun c => is_space c = true) tail ->
  forall cur, split_from cur (s ++ tail) = split_from cur s.
Proof.
  intros H. induction s as [|c s IH]; intros cur.
  - cbn [app]. rewrite (split_from_spaces _ _ H). now destruct cur.
  - cbn [app split_from]. destruct (is_space c); [|apply IH].
    destruct cur; now rewrite IH.
Qed.

Lemma split_leading s : split (drop_while is_space s) = split s.
Proof.
  unfold split. induction s as [|c s IH]; [reflexivity|].
  cbn [drop_while]. destruct (is_space c) eqn:Ec.
  - cbn [split_from]. now rewrite Ec.
  - reflexivity.
Qed.

Lemma rstrip_tail s :
  exists tail, s = rstrip s ++ tail /\ Forall (fun c => is_space c = true) tail.
Proof.
  unfold rstrip, lstrip. exists (rev (take_while is_space (rev s))). split.
  - rewrite <- rev_app_distr, take_drop_while. symmetry. apply rev_involutive.
  - apply Forall_rev, take_while_all.
Qed.

Lemma split_strip s : split (strip s) = split s.
Proof.
  unfold strip.
  destruct (rstrip_tail (lstrip s)) as (tail & E & Htail).
  rewrite <- (split_leading s). fold (lstrip s). rewrite E at 2.
  unfold split. now rewrite split_from_trailing.
Qed.

Lemma split_from_collapse s :
  forall cur, split_from cur (collapse_ws s) = split_from cur s.
Proof.
  induction s as [s IH] using list_length_ind. intros cur.
  destruct s as [|c s]; [reflexivity|].
  destruct (is_space c) eqn:Ec.
  - rewrite (collapse_ws_run c s Ec). cbn [split_from].
    change (is_space SPACE) with true. cbv iota. rewrite Ec.
    assert (E : split_from [] (collapse_ws (drop_while is_space s))
                = split_from [] s).
    { rewrite IH.
      - apply split_leading.
      - pose proof (drop_while_length is_space s). simpl. lia. }
    now rewrite E.
  - cbn [collapse_ws]. rewrite Ec. cbn [split_from]. rewrite Ec.
    apply IH. simpl. lia.
Qed.

Lemma split_from_nonempty s : forall cur, cur <> [] -> split_from cur s <> [].
Proof.
  induction s as [|c s IH]; intros cur Hcur.
  - destruct cur; [contradiction | discriminate].
  - cbn [split_from]. destruct (is_space c).
    + destruct cur; [contradiction | discriminate].
    + apply IH. discriminate.
Qed.

Lemma ends_clean_tail c s : s <> [] -> ends_clean (c :: s) -> ends_clean s.
Proof.
  unfold ends_clean. cbn [rev]. intros Hs.
  destruct (rev s) as [|a r] eqn:E.
  - apply (f_equal (@rev Z)) in E. rewrite rev_involutive in E. contradiction.
  - trivial.
Qed.

Lemma join_cons sep p rest :
  rest <> [] -> join sep (p :: rest) = p ++ sep ++ join sep rest.
Proof. destruct rest; [contradiction | reflexivity]. Qed.

(** Reading a single-spaced text word by word and joining the words with
    spaces gives the text back. [cur] is the word that is being read. *)
Lemma join_split_from s :
  forall cur,
    single_spaced s -> ends_clean s -> (cur <> [] \/ starts_clean s) ->
    join [SPACE] (split_from cur s) = rev cur ++ s.
Proof.
  induction s as [|c s IH]; intros cur Hsingle Hend Hstart.
  - cbn [split_from]. destruct cur; [reflexivity|].
    cbn [join]. now rewrite app_nil_r.
  - cbn [single_spaced] in Hsingle. destruct Hsingle as [Hc Hsingle].
    cbn [split_from]. destruct (is_space c) eqn:Ec.
    + destruct (Hc eq_refl) as [-> Hs].
      destruct Hstart as [Hcur|Hstart]; [|simpl in Hstart; congruence].
      destruct s as [|c' s].
      { unfold ends_clean in Hend. simpl in Hend. discriminate Hend. }
      assert (Hend' : ends_clean (c' :: s))
        by (apply (ends_clean_tail SPACE); [discriminate | exact Hend]).
      destruct cur as [|a cur]; [contradiction|].
      rewrite join_cons.
      * rewrite (IH [] Hsingle Hend' (or_intror Hs)). reflexivity.
      * cbn [split_from]. simpl in Hs. rewrite Hs.
        apply split_from_nonempty. discriminate.
    + rewrite IH.
      * cbn [rev]. now rewrite <- app_assoc.
      * exact Hsingle.
      * destruct s as [|c' s]; [exact I|].
        apply (ends_clean_tail c); [discriminate | exact Hend].
      * left. discriminate.
Qed.

(** The words of a single-spaced text: one more than its spaces. *)
Lemma length_split_from s :
  forall cur,
    single_spaced s -> ends_clean s -> (cur <> [] \/ starts_clean s) ->
    (cur <> [] \/ s <> []) ->
    List.length (split_from cur s) = S (count_occ Z.eq_dec s SPACE).
Proof.
  induction s as [|c s IH]; intros cur Hsingle Hend Hstart Hne.
  - destruct cur; [destruct Hne; contradiction | reflexivity].
  - cbn [single_spaced] in Hsingle. destruct Hsingle as [Hc Hsingle].
    cbn [split_from]. destruct (is_space c) eqn:Ec.
    + destruct (Hc eq_refl) as [-> Hs].
      destruct Hstart as [Hcur|Hstart]; [|simpl in Hstart; congruence].
      destruct s as [|c' s].
      { unfold ends_clean in Hend. simpl in Hend. discriminate Hend. }
      assert (Hend' : ends_clean (c' :: s))
        by (apply (ends_clean_tail SPACE); [discriminate | exact Hend]).
      destruct cur as [|a cur]; [contradiction|].
      cbn [List.length].
      rewrite (IH [] Hsingle Hend' (or_intror Hs)) by (right; discriminate).
      rewrite (count_occ_cons_eq Z.eq_dec (c' :: s) (eq_refl SPACE)).
      reflexivity.
    + rewrite IH.
      * rewrite count_occ_cons_neq; [reflexivity|].
        intros ->. discriminate Ec.
      * exact Hsingle.
      * destruct s as [|c' s]; [exact I|].
        apply (ends_clean_tail c); [discriminate | exact Hend].
      * left. discriminate.
      * left. discriminate.
Qed.

End Words.

(** X15. Splitting a text on whitespace and joining the words with single
    spaces is the last step of [clean_text]: collapsing the runs of
    whitespace and trimming. On a cleaned text it gives the text back. *)
Theorem join_split_normalizes (s : pystr) :
  join (lit " ") (split s) = strip (collapse_ws s)
  /\ join (lit " ") (split (clean_text s)) = clean_text s.
Proof.
  change (lit " ") with [SPACE]. split.
  - assert (E : split s = split (strip (collapse_ws s))).
    { rewrite split_strip. unfold split. symmetry. apply split_from_collapse. }
    rewrite E.
    apply (join_split_from (strip (collapse_ws s)) []).
    + apply single_spaced_strip, collapse_ws_single_spaced.
    + apply strip_ends_clean.
    + right. apply strip_starts_clean.
  - apply (join_split_from (clean_text s) []).
    + apply clean_text_single_spaced.
    + apply clean_text_ends_clean.
    + right. apply clean_text_starts_clean.
Qed.

(** X16. A transcript that is not empty has one word more than it has
    spaces, so the gate on the number of words rejects exactly the
    transcripts without a space. *)
Theorem transcript_words (x : pystr) :
  clean_text x <> [] ->
  List.length (split (clean_text x))
  = S (count_occ Z.eq_dec (clean_text x) SPACE)
  /\ ((List.length (split (clean_text x)) < 2)%nat
      <-> ~ In SPACE (clean_text x)).
Proof.
  intros Hne.
  assert (E : List.length (split (clean_text x))
              = S (count_occ Z.eq_dec (clean_text x) SPACE)).
  { apply (length_split_from (clean_text x) []).
    - apply clean_text_single_spaced.
    - apply clean_text_ends_clean.
    - right. apply clean_text_starts_clean.
    - now right. }
  split; [exact E|]. rewrite E.
  rewrite (count_occ_not_In Z.eq_dec). lia.
Qed.

Lemma transcript_words_witness :
  List.length (split (clean_text (lit " turn  on lights ")))
  = S (count_occ Z.eq_dec (clean_text (lit " turn  on lights ")) SPACE).
Proof.
  refine (proj1 (transcript_words (lit " turn  on lights ") _)).
  vm_compute. discriminate.
Defined.

(* ================================================================== *)
(** ** The text of the segments *)
(* ================================================================== *)

Section Segments.

Lemma ends_clean_app a b : b <> [] -> ends_clean b -> ends_clean (a ++ b).
Proof.
  unfold ends_clean. rewrite rev_app_distr. intros Hb.
  destruct (rev b) as [|c r] eqn:E.
  - apply (f_equal (@rev Z)) in E. rewrite rev_involutive in E. contradiction.
  - trivial.
Qed.

Lemma starts_clean_app a b : a <> [] -> starts_clean a -> starts_clean (a ++ b).
Proof. destruct a; [contradiction | trivial]. Qed.

(** Joining trimmed, non-empty parts gives a trimmed text, empty only when
    there is no part. *)
Lemma join_trimmed sep parts :
  Forall (fun p => p <> [] /\ starts_clean p /\ ends_clean p) parts ->
  starts_clean (join sep parts) /\ ends_clean (join sep parts)
  /\ (parts <> [] -> join sep parts <> []).
Proof.
  induction 1 as [|p parts (Hne & Hs & He) Hparts IH].
  - repeat split. intros H. contradiction.
  - destruct parts as [|q parts].
    + cbn [join]. split; [exact Hs|]. split; [exact He|]. intros _. exact Hne.
    + rewrite join_cons by discriminate.
      destruct IH as (_ & IHe & IHne).
      assert (Hj : join sep (q :: parts) <> []) by (apply IHne; discriminate).
      repeat split.
      * now apply starts_clean_app.
      * rewrite app_assoc. now apply ends_clean_app.
      * intros _ H. apply app_eq_nil in H. destruct H as [H _]. contradiction.
Qed.

Lemma segment_filter segments :
  filter (fun s => nonempty s && nonempty (strip s)) segments
  = filter (fun s => nonempty (strip s)) segments.
Proof.
  apply filter_ext. intros s. destruct s; reflexivity.
Qed.

Lemma segment_parts segments :
  Forall (fun p => p <> [] /\ starts_clean p /\ ends_clean p)
    (map strip (filter (fun s => nonempty (strip s)) segments)).
Proof.
  apply Forall_forall. intros p Hp.
  apply in_map_iff in Hp. destruct Hp as (s & <- & Hs).
  apply filter_In in Hs. destruct Hs as [_ Hs].
  repeat split.
  - destruct (strip s); [discriminate Hs | discriminate].
  - apply strip_starts_clean.
  - apply strip_ends_clean.
Qed.

Lemma segments_text_join segments :
  segments_text segments = stt_test_text segments.
Proof.
  unfold segments_text, stt_test_text. rewrite segment_filter.
  destruct (join_trimmed (lit " ") _ (segment_parts segments)) as (Hs & He & _).
  now apply strip_id.
Qed.

Lemma stt_test_text_empty segments :
  stt_test_text segments = [] <-> Forall blank segments.
Proof.
  unfold stt_test_text, blank.
  destruct (join_trimmed (lit " ") _ (segment_parts segments)) as (_ & _ & Hne).
  split.
  - intros H. apply Forall_forall. intros s Hs.
    destruct (strip s) as [|c r] eqn:E; [reflexivity|]. exfalso.
    apply Hne; [|exact H].
    intros Hnil. apply map_eq_nil in Hnil.
    assert (Hin : In s (filter (fun s => nonempty (strip s)) segments)).
    { apply filter_In. split; [exact Hs|]. now rewrite E. }
    rewrite Hnil in Hin. contradiction.
  - intros H. clear Hne.
    induction H as [|s segments Hs _ IH]; [reflexivity|].
    cbn [filter]. rewrite Hs. exact IH.
Qed.

End Segments.

(** X17. The text that [transcribe_audio] builds from the segments is the
    one that stt_test.py prints: the test [s.text and ...] and the last
    [strip()] change nothing. It has no whitespace at its start or end and
    is empty exactly when every segment is blank; stt_test.py then prints
    "(nothing)". *)
Theorem segments_text_stt_test (segments : list pystr) :
  segments_text segments = stt_test_text segments
  /\ starts_clean (segments_text segments)
  /\ ends_clean (segments_text segments)
  /\ (segments_text segments = [] <-> Forall blank segments)
  /\ (Forall blank segments -> stt_test_heard segments = lit "(nothing)")
  /\ (~ Forall blank segments ->
      stt_test_heard segments = segments_text segments).
Proof.
  pose proof (segments_text_join segments) as E.
  split; [exact E|]. rewrite E.
  destruct (join_trimmed (lit " ") _ (segment_parts segments)) as (Hs & He & _).
  split; [exact Hs|]. split; [exact He|].
  split; [apply stt_test_text_empty|]. split.
  - intros H. apply stt_test_text_empty in H.
    unfold stt_test_heard. now rewrite H.
  - intros H. unfold stt_test_heard.
    destruct (stt_test_text segments) as [|c r] eqn:Et; [|reflexivity].
    exfalso. apply H. now apply stt_test_text_empty.
Qed.

Lemma segments_text_stt_test_witness :
  stt_test_heard [lit "  "; []] = lit "(nothing)".
Proof.
  refine (proj1 (proj2 (proj2 (proj2 (proj2
            (segments_text_stt_test [lit "  "; []]))))) _).
  repeat constructor.
Defined.

(** X18. When the recognizer hears nothing (every segment is blank), the
    turn says so and goes back to the prompt: the bridge is not called. *)
Theorem silence_is_not_sent py w segments :
  w_input w = Ok tt -> w_capture w = Ok tt ->
  w_segments w = Ok segments -> Forall blank segments ->
  turn py w = (listen_events ++ [Print [lit "Didn't catch that."]], Continue).
Proof.
  intros Hi Hc Hs Hb.
  assert (Ht : segments_text segments = []).
  { rewrite segments_text_join. now apply stt_test_text_empty. }
  assert (Hh : hears w []).
  { split; [exact Hi|]. split; [exact Hc|].
    exists segments. split; [exact Hs|]. now rewrite Ht. }
  rewrite (turn_hears py w [] Hh).
  rewrite (converse_rejected py w [] (lit "Didn't catch that.") eq_refl).
  reflexivity.
Qed.

Lemma silence_is_not_sent_witness :
  turn (demo_lib [])
    {| w_input := Ok tt; w_capture := Ok tt;
       w_segments := Ok [lit "  "; []];
       w_wsl := Ok (demo_answer []); w_tts := Ok (exited 0);
       w_where := Ok (exited 0); w_player := Ok (exited 0) |}
  = (listen_events ++ [Print [lit "Didn't catch that."]], Continue).
Proof.
  refine (silence_is_not_sent (demo_lib [])
            {| w_input := Ok tt; w_capture := Ok tt;
               w_segments := Ok [lit "  "; []];
               w_wsl := Ok (demo_answer []); w_tts := Ok (exited 0);
               w_where := Ok (exited 0); w_player := Ok (exited 0) |}
            [lit "  "; []] eq_refl eq_refl eq_refl _).
  repeat constructor.
Defined.
